(** * Commit graph of the Noms value store: types and ancestry

    A shallow embedding of [go/datas/commit.go] and of the datasets of
    [go/datas/dataset.go]: their names and their heads.  The Go package [types] (structural types,
    values, references, sets, the height-ordered reference queue) is consumed
    by the embedded code but is not part of it; the parts of it that the
    embedded functions call are modelled in the first sections. *)

From Stdlib Require Import Ascii String.
From stdpp Require Import base numbers option list strings gmap sorting.

Local Open Scope N_scope.

(** ** Outcomes of Go code

    A Go function of the embedding either returns, panics ([d.PanicIfFalse],
    a failed type assertion, an index out of range) or, for the loops that are
    run with a fuel counter, has not finished when the fuel is spent. *)

Inductive Res (A : Type) : Type :=
| Ok (a : A)
| Panic (msg : string)
| Timeout.
Arguments Ok {A} a.
Arguments Panic {A} msg.
Arguments Timeout {A}.

Definition bindRes {A B : Type} (m : Res A) (k : A → Res B) : Res B :=
  match m with
  | Ok a => k a
  | Panic msg => Panic msg
  | Timeout => Timeout
  end.

Notation "x ⇐ m ;; k" := (bindRes m (fun x => k))
  (at level 100, m at next level, right associativity).

(** [d.PanicIfFalse(b, msg)] *)
Definition PanicIfFalse (b : bool) (msg : string) : Res unit :=
  if b then Ok tt else Panic msg.

(** A loop body run over a slice, left to right, stopping at the first panic. *)
Fixpoint forEach {A S : Type} (body : S → A → Res S) (s : S) (l : list A) : Res S :=
  match l with
  | [] => Ok s
  | x :: l' => s' ⇐ body s x ;; forEach body s' l'
  end.

(** ** Structural types (package [types])

    Package [types] is used by the embedded code and is not part of it.  Its
    types, values and operations are modelled below, each from what the
    specification says of the capability (its sections 3, 4 and 6). *)

(** Modelled from the spec: [types.NomsKind], the kinds of types: the
    primitive kinds, the compound kinds (list, map, reference, set, union),
    struct and the cyclic placeholder. *)
Inductive NomsKind : Set :=
| BoolKind | NumberKind | StringKind | BlobKind | ValueKind
| ListKind | MapKind | RefKind | SetKind | StructKind
| CycleKind | TypeKind | UnionKind.

#[global] Instance NomsKind_eq_dec : EqDecision NomsKind.
Proof. solve_decision. Defined.

#[local] Unset Elimination Schemes.
(** Modelled from the spec: [types.Type], a structural type, given by its
    descriptor: [PrimitiveDesc], [CompoundDesc] (kind and element types),
    [StructDesc] (name and fields in order) or [CycleDesc] (the placeholder
    [Cycle<level>] for an enclosing struct). *)
Inductive Type_ : Set :=
| PrimitiveDesc (k : NomsKind)
| CompoundDesc (k : NomsKind) (ElemTypes : list Type_)
| StructDesc (Name : string) (fields : list (string * Type_))
| CycleDesc (level : N).
#[local] Set Elimination Schemes.

(** Modelled from the spec: [t.Kind()]. *)
Definition Kind (t : Type_) : NomsKind :=
  match t with
  | PrimitiveDesc k => k
  | CompoundDesc k _ => k
  | StructDesc _ _ => StructKind
  | CycleDesc _ => CycleKind
  end.

(** Modelled from the spec: [t.Equals(o)], the structural equality of two
    types. *)
Fixpoint Equals (a b : Type_) {struct a} : bool :=
  match a, b with
  | PrimitiveDesc k, PrimitiveDesc k' => bool_decide (k = k')
  | CompoundDesc k l, CompoundDesc k' l' =>
      bool_decide (k = k') &&
      (fix all2 (l l' : list Type_) {struct l} : bool :=
         match l, l' with
         | [], [] => true
         | x :: xs, y :: ys => Equals x y && all2 xs ys
         | _, _ => false
         end) l l'
  | StructDesc n fs, StructDesc n' fs' =>
      bool_decide (n = n') &&
      (fix all2 (l l' : list (string * Type_)) {struct l} : bool :=
         match l, l' with
         | [], [] => true
         | (f, x) :: xs, (g, y) :: ys => bool_decide (f = g) && Equals x y && all2 xs ys
         | _, _ => false
         end) fs fs'
  | CycleDesc n, CycleDesc n' => bool_decide (n = n')
  | _, _ => false
  end.

(** Modelled from the spec: [types.ValueType], the type of all values. *)
Definition ValueType : Type_ := PrimitiveDesc ValueKind.
(** Modelled from the spec: [types.NumberType]. *)
Definition NumberType : Type_ := PrimitiveDesc NumberKind.
(** Modelled from the spec: [types.StringType]. *)
Definition StringType : Type_ := PrimitiveDesc StringKind.
(** Modelled from the spec: [types.BoolType]. *)
Definition BoolType : Type_ := PrimitiveDesc BoolKind.
(** Modelled from the spec: [types.MakeSetType], the type [Set<elem>]. *)
Definition MakeSetType (elem : Type_) : Type_ := CompoundDesc SetKind [elem].
(** Modelled from the spec: [types.MakeRefType], the type [Ref<elem>]. *)
Definition MakeRefType (elem : Type_) : Type_ := CompoundDesc RefKind [elem].
(** Modelled from the spec: [types.MakeCycleType], the placeholder
    [Cycle<level>]; it is kept as it is written. *)
Definition MakeCycleType (level : N) : Type_ := CycleDesc level.
(** Modelled from the spec: [types.MakeStructType], the struct type with the
    given name, field names and field types, in their order. *)
Definition MakeStructType (name : string) (fieldNames : list string)
    (fieldTypes : list Type_) : Type_ :=
  StructDesc name (zip fieldNames fieldTypes).
(** Modelled from the spec: [types.EmptyStructType], the type [struct {}]. *)
Definition EmptyStructType : Type_ := MakeStructType "" [] [].

(** Modelled from the spec: [StructDesc.Field(name)], the type of the named
    field, nil when the struct type has no such field. *)
Fixpoint Field (fields : list (string * Type_)) (name : string) : option Type_ :=
  match fields with
  | [] => None
  | (n, t) :: rest => if bool_decide (n = name) then Some t else Field rest name
  end.

(** Induction over types that reaches the element and field types. *)
Section Type_induction.
Variable P : Type_ → Prop.
Hypothesis Hprim : ∀ k, P (PrimitiveDesc k).
Hypothesis Hcomp : ∀ k l, Forall P l → P (CompoundDesc k l).
Hypothesis Hstruct : ∀ n fs, Forall (λ f, P f.2) fs → P (StructDesc n fs).
Hypothesis Hcycle : ∀ n, P (CycleDesc n).

Fixpoint Type_ind (t : Type_) : P t :=
  match t with
  | PrimitiveDesc k => Hprim k
  | CompoundDesc k l =>
      Hcomp k l
        ((fix go (l : list Type_) : Forall P l :=
            match l with
            | [] => Forall_nil_2 P
            | x :: xs => Forall_cons_2 P x xs (Type_ind x) (go xs)
            end) l)
  | StructDesc n fs =>
      Hstruct n fs
        ((fix go (l : list (string * Type_)) : Forall (λ f, P f.2) l :=
            match l with
            | [] => Forall_nil_2 _
            | x :: xs => Forall_cons_2 (λ f, P f.2) x xs (Type_ind x.2) (go xs)
            end) fs)
  | CycleDesc n => Hcycle n
  end.
End Type_induction.

(** Modelled from the spec: the flattening step of [types.MakeUnionType]:
    the members of [t], a union being replaced by its members, are added to
    the types seen so far unless they are among them. *)
Fixpoint flattenUnionTypes (t : Type_) (seen : list Type_) {struct t} : list Type_ :=
  match t with
  | CompoundDesc UnionKind elems =>
      (fix go (l : list Type_) (seen : list Type_) {struct l} : list Type_ :=
         match l with
         | [] => seen
         | e :: l' => go l' (flattenUnionTypes e seen)
         end) elems seen
  | _ => if existsb (Equals t) seen then seen else seen ++ [t]
  end.

(** Modelled from the spec: [types.MakeUnionType].  Nested unions are
    flattened, a member that was already seen is dropped (so that
    [union(T, T)] is [T]), and when a single member is left that member
    itself is the result.  Members are kept in the order of their first
    occurrence. *)
Definition MakeUnionType (elemTypes : list Type_) : Type_ :=
  match foldl (λ seen t, flattenUnionTypes t seen) [] elemTypes with
  | [t] => t
  | ts => CompoundDesc UnionKind ts
  end.

(** ** Values (package [types]) *)

(** Modelled from the spec: [hash.Hash], the content hash of a value. *)
Definition Hash : Set := N.

(** Modelled from the spec: [types.Ref], a reference: the hash of its
    target, its height and the type of the target. *)
Record Ref : Set := mkRef {
  TargetHash : Hash;
  Height : N;
  TargetType : Type_;
}.

(** Modelled from the spec: a member of a [types.Set]: a reference, or
    another value, of which the type, the greatest height of the references
    it contains and a number that stands for the rest of its content are
    kept. *)
Inductive Member : Set :=
| MRef (r : Ref)
| MOther (t : Type_) (chunks : N) (data : N).

(** Modelled from the spec: [types.Value]: a set, or a value that the
    embedded code never looks into, of which the type, the greatest height
    of the references it contains (0 when it contains none) and a number
    that stands for the rest of its content are kept. *)
Inductive Value : Set :=
| Opaque (t : Type_) (chunks : N) (data : N)
| SetValue (members : list Member).

(** Modelled from the spec: [types.Struct] and [types.NewStructWithType]: a
    struct value is its type and its field values, in the order of the
    fields of the type. *)
Record Struct : Set := NewStructWithType {
  sType : Type_;
  sValues : list Value;
}.

(** Modelled from the spec: the equality of two references as values. *)
Definition Ref_eqb (a b : Ref) : bool :=
  (TargetHash a =? TargetHash b) && (Height a =? Height b)
  && Equals (TargetType a) (TargetType b).

(** Modelled from the spec: [v.Equals(o)] on the members of a set. *)
Definition Member_eqb (a b : Member) : bool :=
  match a, b with
  | MRef r, MRef r' => Ref_eqb r r'
  | MOther t c d, MOther t' c' d' => Equals t t' && (c =? c') && (d =? d')
  | _, _ => false
  end.

(** Modelled from the spec: [v.Type()] on a member of a set; the type of a
    reference is [Ref<T>] for the type [T] of its target. *)
Definition typeOfMember (m : Member) : Type_ :=
  match m with
  | MRef r => MakeRefType (TargetType r)
  | MOther t _ _ => t
  end.

(** Modelled from the spec: [v.Type()]; the type of a set is [Set<U>] for
    the union [U] of the types of its members. *)
Definition typeOf (v : Value) : Type_ :=
  match v with
  | Opaque t _ _ => t
  | SetValue ms => MakeSetType (MakeUnionType (typeOfMember <$> ms))
  end.

(** The greatest of a list of heights, 0 for the empty list. *)
Definition maxN (l : list N) : N := foldr N.max 0 l.

(** Modelled from the spec: the greatest height of the references contained
    in a member of a set. *)
Definition chunksOfMember (m : Member) : N :=
  match m with
  | MRef r => Height r
  | MOther _ c _ => c
  end.

(** Modelled from the spec: the greatest height of the references contained
    in a value. *)
Definition chunksOfValue (v : Value) : N :=
  match v with
  | Opaque _ c _ => c
  | SetValue ms => maxN (chunksOfMember <$> ms)
  end.

(** Modelled from the spec: the greatest height of the references contained
    in a struct, 0 when it contains none. *)
Definition maxChunkHeight (s : Struct) : N := maxN (chunksOfValue <$> sValues s).

(** The content hash of a value is computed by the store; the hash function
    is a parameter. *)
Class Hasher := hashOf : Struct → Hash.

(** Modelled from the spec: [types.NewRef].  The reference to a value has the
    hash of the value, one more than the greatest height of the references
    the value contains (so 1 for a value without references), and the type of
    the value. *)
Definition NewRef `{Hasher} (v : Struct) : Ref :=
  {| TargetHash := hashOf v; Height := 1 + maxChunkHeight v; TargetType := sType v |}.

(** Modelled from the spec: [types.NewSet()], the empty set.  A set is the
    list of its members, without repetition; [IterAll] visits the list. *)
Definition NewSet : list Member := [].
(** Modelled from the spec: [s.Has(v)]. *)
Definition Has (s : list Member) (v : Member) : bool := existsb (Member_eqb v) s.
(** Modelled from the spec: [s.Empty()]. *)
Definition Empty (s : list Member) : bool := bool_decide (length s = 0%nat).
(** Modelled from the spec: [s.Insert(vs...)], which adds the values that
    the set does not hold yet. *)
Definition Insert (s : list Member) (vs : list Member) : list Member :=
  foldl (λ s v, if Has s v then s else s ++ [v]) s vs.

(** The type assertion [v.(types.Set)]. *)
Definition asSet (v : Value) : Res (list Member) :=
  match v with
  | SetValue ms => Ok ms
  | Opaque _ _ _ => Panic "interface conversion: types.Value is not types.Set"
  end.

(** The type assertion [v.(types.Ref)]. *)
Definition asRef (m : Member) : Res Ref :=
  match m with
  | MRef r => Ok r
  | MOther _ _ _ => Panic "interface conversion: types.Value is not types.Ref"
  end.

(** The position of the field [n] among the fields of a struct type. *)
Fixpoint fieldIndex (fields : list (string * Type_)) (n : string) : option nat :=
  match fields with
  | [] => None
  | (f, _) :: rest => if bool_decide (f = n) then Some 0%nat else S <$> fieldIndex rest n
  end.

(** Modelled from the spec: [s.Get(n)], the value of the field [n] of a
    struct; it panics when the struct has no such field. *)
Definition Get (s : Struct) (n : string) : Res Value :=
  match sType s with
  | StructDesc _ fields =>
      match fieldIndex fields n ≫= λ i, sValues s !! i with
      | Some v => Ok v
      | None => Panic "Struct has no field"
      end
  | _ => Panic "Struct has no field"
  end.

(** Modelled from the spec: [r.TargetValue(vr)] on a [types.ValueReader],
    the store read by hash, followed by the assertion [.(types.Struct)],
    which panics on the nil value of a hash that the store does not hold. *)
Definition TargetValue (r : Ref) (vr : gmap Hash Struct) : Res Struct :=
  match vr !! TargetHash r with
  | Some c => Ok c
  | None => Panic "interface conversion: nil is not types.Struct"
  end.

(** Modelled from the spec: the order of [types.RefByHeight], the
    height-ordered frontier: its references are kept sorted by height,
    tallest first. *)
Definition taller (a b : Ref) : Prop := Height b ≤ Height a.

#[global] Instance taller_dec : RelDecision taller.
Proof. intros a b. unfold taller. apply _. Defined.

(** Modelled from the spec: [q.Empty()] on a [types.RefByHeight]. *)
Definition qEmpty (q : list Ref) : bool := bool_decide (length q = 0%nat).
(** Modelled from the spec: [q.MaxHeight()], the greatest height present. *)
Definition MaxHeight (q : list Ref) : N :=
  match q with
  | [] => 0
  | r :: _ => Height r
  end.
(** Modelled from the spec: [q.PopRefsOfHeight(height)], which removes and
    returns all the references of the greatest height; the result is the
    pair of the removed references and the rest of the queue. *)
Fixpoint PopRefsOfHeight (q : list Ref) (height : N) : list Ref * list Ref :=
  match q with
  | [] => ([], [])
  | r :: q' =>
      if Height r =? height
      then let '(refs, rest) := PopRefsOfHeight q' height in (r :: refs, rest)
      else ([], q)
  end.
(** Modelled from the spec: [q.PushBack(r)]. *)
Definition PushBack (q : list Ref) (r : Ref) : list Ref := q ++ [r].
(** Modelled from the spec: [sort.Sort(q)], which sorts the queue again by
    height. *)
Definition Sort (q : list Ref) : list Ref := merge_sort taller q.

(** [types.IsSubtype(requiredType, concreteType)], the subtype check of
    package [types], is a parameter of the embedded code, which only calls
    it. *)
Class Subtyping := IsSubtype : Type_ → Type_ → bool.

(** Go does not fix the order in which [range] visits the entries of a map.
    The order is a parameter of the code that ranges over a map: it is given
    the entries and returns them in the order of the visit. *)
Definition RangeOrder : Type := list (Hash * Ref) → list (Hash * Ref).

(** ** go/datas/commit.go *)

Definition ParentsField : string := "parents".
Definition ValueField : string := "value".
Definition MetaField : string := "meta".

Definition makeCommitType (valueType : Type_) (parentsValueTypes : list Type_)
    (metaType : Type_) (parentsMetaTypes : list Type_) : Type_ :=
  let tmp := parentsValueTypes ++ [valueType] in
  let parentsValueUnionType := MakeUnionType tmp in
  let tmp2 := parentsMetaTypes ++ [metaType] in
  let parentsMetaUnionType := MakeUnionType tmp2 in
  let fieldNames := [MetaField; ParentsField; ValueField] in
  let parentsType :=
    if Equals parentsValueUnionType valueType && Equals parentsMetaUnionType metaType
    then MakeSetType (MakeRefType (MakeCycleType 0))
    else MakeSetType (MakeRefType
           (MakeStructType "Commit" fieldNames
              [parentsMetaUnionType;
               MakeSetType (MakeRefType (MakeCycleType 0));
               parentsValueUnionType])) in
  let fieldTypes := [metaType; parentsType; valueType] in
  MakeStructType "Commit" fieldNames fieldTypes.

Definition valueCommitType : Type_ :=
  makeCommitType ValueType [] EmptyStructType [].

(** [t.Desc.(types.CompoundDesc).ElemTypes[0]] *)
Definition firstElemType (t : Type_) : Res Type_ :=
  match t with
  | CompoundDesc _ (e :: _) => Ok e
  | CompoundDesc _ [] => Panic "index out of range"
  | _ => Panic "interface conversion: types.TypeDesc is not types.CompoundDesc"
  end.

Definition getSetElementType (t : Type_) : Res Type_ :=
  _ ⇐ PanicIfFalse (bool_decide (Kind t = SetKind)) "" ;;
  firstElemType t.

Definition getRefElementType (t : Type_) : Res Type_ :=
  _ ⇐ PanicIfFalse (bool_decide (Kind t = RefKind)) "" ;;
  firstElemType t.

(** [Field] returns nil for a field that the struct type does not have; the
    nil type is dereferenced as soon as the union of the collected types is
    built, so the absent field is a panic here. *)
Definition fieldTypeFromCommit (t : Type_) (fieldName : string) : Res Type_ :=
  match t with
  | StructDesc name fields =>
      _ ⇐ PanicIfFalse (bool_decide (name = "Commit"%string)) "" ;;
      match Field fields fieldName with
      | Some ft => Ok ft
      | None => Panic "invalid memory address or nil pointer dereference"
      end
  | _ => Panic ""
  end.

Definition fieldTypeFromRefOfCommit (t : Type_) (fieldName : string) : Res Type_ :=
  e ⇐ getRefElementType t ;;
  fieldTypeFromCommit e fieldName.

Definition valueTypesFromParents (parents : list Member) (fieldName : string)
    : Res (list Type_) :=
  elemType ⇐ getSetElementType (typeOf (SetValue parents)) ;;
  match Kind elemType with
  | UnionKind =>
      match elemType with
      | CompoundDesc _ elems =>
          forEach (λ ts rt, ft ⇐ fieldTypeFromRefOfCommit rt fieldName ;; Ok (ts ++ [ft]))
                  [] elems
      | _ => Panic "interface conversion: types.TypeDesc is not types.CompoundDesc"
      end
  | _ => ft ⇐ fieldTypeFromRefOfCommit elemType fieldName ;; Ok [ft]
  end.

(** [NewCommit(value, parents, meta)].  [parents] is the set of parent
    references; of [meta], a struct value, only the type is used. *)
Definition NewCommit (value : Value) (parents : list Member) (meta : Value) : Res Struct :=
  pvs ⇐ valueTypesFromParents parents ValueField ;;
  pms ⇐ valueTypesFromParents parents MetaField ;;
  let t := makeCommitType (typeOf value) pvs (typeOf meta) pms in
  Ok (NewStructWithType t [meta; SetValue parents; value]).

Definition IsCommitType `{Subtyping} (t : Type_) : bool :=
  IsSubtype valueCommitType t.

Definition IsRefOfCommitType `{Subtyping} (t : Type_) : Res bool :=
  if bool_decide (Kind t = RefKind)
  then e ⇐ getRefElementType t ;; Ok (IsCommitType e)
  else Ok false.

(** [getAncestors]: the direct ancestors of [commits] with height >=
    [minHeight]. *)
Definition getAncestors (commits : list Member) (minHeight : N)
    (vr : gmap Hash Struct) : Res (list Member) :=
  forEach (λ ancestors v,
      r ⇐ asRef v ;;
      c ⇐ TargetValue r vr ;;
      if minHeight <? Height r then
        pv ⇐ Get c ParentsField ;;
        ps ⇐ asSet pv ;;
        next ⇐ forEach (λ next v,
                  r ⇐ asRef v ;;
                  Ok (if minHeight <=? Height r then next ++ [v] else next))
                [] ps ;;
        Ok (Insert ancestors next)
      else Ok ancestors)
    NewSet commits.

(** The loop of [CommitDescendsFrom]; one unit of fuel per iteration. *)
Fixpoint descendsLoop (fuel : nat) (ancestors : list Member) (ancestor : Ref)
    (vr : gmap Hash Struct) : Res bool :=
  if Has ancestors (MRef ancestor) then Ok true
  else if Empty ancestors then Ok false
  else match fuel with
       | O => Timeout
       | S fuel' =>
           ancestors' ⇐ getAncestors ancestors (Height ancestor) vr ;;
           descendsLoop fuel' ancestors' ancestor vr
       end.

Definition CommitDescendsFrom (fuel : nat) (commit : Struct) (ancestor : Ref)
    (vr : gmap Hash Struct) : Res bool :=
  pv ⇐ Get commit ParentsField ;;
  ancestors ⇐ asSet pv ;;
  descendsLoop fuel ancestors ancestor vr.

Definition parentsToQueue (refs : list Ref) (q : list Ref) (vr : gmap Hash Struct)
    : Res (list Ref) :=
  q' ⇐ forEach (λ q r,
          c ⇐ TargetValue r vr ;;
          pv ⇐ Get c ParentsField ;;
          p ⇐ asSet pv ;;
          forEach (λ q v, r ⇐ asRef v ;; Ok (PushBack q r)) q p)
        q refs ;;
  Ok (Sort q').

Definition toRefSet (s : list Ref) : gmap Hash Ref :=
  foldl (λ out r, <[TargetHash r := r]> out) ∅ s.

(** [findCommonRef]; [None] is the zero [types.Ref{}]. *)
Definition findCommonRef (range : RangeOrder) (a b : list Ref) : option Ref :=
  let aSet := toRefSet a in
  let bSet := toRefSet b in
  snd <$> head (filter (λ sr, is_Some (bSet !! sr.1)) (range (map_to_list aSet))).

(** The body of the loop of [FindCommonAncestor]: either the common ancestor
    that was found, or the two queues for the next iteration. *)
Definition commonAncestorStep (range : RangeOrder) (c1Q c2Q : list Ref)
    (vr : gmap Hash Struct) : Res (Struct + list Ref * list Ref) :=
  let c1Ht := MaxHeight c1Q in
  let c2Ht := MaxHeight c2Q in
  if c1Ht =? c2Ht then
    let '(c1Parents, c1Q) := PopRefsOfHeight c1Q c1Ht in
    let '(c2Parents, c2Q) := PopRefsOfHeight c2Q c2Ht in
    match findCommonRef range c1Parents c2Parents with
    | Some common => a ⇐ TargetValue common vr ;; Ok (inl a)
    | None =>
        c1Q ⇐ parentsToQueue c1Parents c1Q vr ;;
        c2Q ⇐ parentsToQueue c2Parents c2Q vr ;;
        Ok (inr (c1Q, c2Q))
    end
  else if c2Ht <? c1Ht then
    let '(c1Parents, c1Q) := PopRefsOfHeight c1Q c1Ht in
    c1Q ⇐ parentsToQueue c1Parents c1Q vr ;;
    Ok (inr (c1Q, c2Q))
  else
    let '(c2Parents, c2Q) := PopRefsOfHeight c2Q c2Ht in
    c2Q ⇐ parentsToQueue c2Parents c2Q vr ;;
    Ok (inr (c1Q, c2Q)).

(** The loop of [FindCommonAncestor], one unit of fuel per iteration;
    [Ok None] is the result with [ok] set to false. *)
Fixpoint commonAncestorLoop (range : RangeOrder) (fuel : nat) (c1Q c2Q : list Ref)
    (vr : gmap Hash Struct) : Res (option Struct) :=
  if negb (qEmpty c1Q) && negb (qEmpty c2Q) then
    match fuel with
    | O => Timeout
    | S fuel' =>
        s ⇐ commonAncestorStep range c1Q c2Q vr ;;
        match s with
        | inl a => Ok (Some a)
        | inr (c1Q', c2Q') => commonAncestorLoop range fuel' c1Q' c2Q' vr
        end
    end
  else Ok None.

Definition FindCommonAncestor `{Subtyping} `{Hasher} (range : RangeOrder) (fuel : nat)
    (c1 c2 : Struct) (vr : gmap Hash Struct) : Res (option Struct) :=
  _ ⇐ PanicIfFalse (IsCommitType (sType c1)) "FindCommonAncestor() called on %s" ;;
  _ ⇐ PanicIfFalse (IsCommitType (sType c2)) "FindCommonAncestor() called on %s" ;;
  commonAncestorLoop range fuel [NewRef c1] [NewRef c2] vr.

(** ** Regular expressions (Go package [regexp])

    The fragment of the syntax that [go/datas/dataset.go] uses: a character
    class of ranges, one-or-more repetition, concatenation and the anchors
    [^] and [$], which without the multi-line flag match only at the
    beginning and at the end of the text.  A text is its bytes; every byte of
    a character outside ASCII is above 127 and so outside every range
    below. *)

Inductive regexp : Set :=
| ReBeginText
| ReEndText
| ReClass (ranges : list (ascii * ascii))
| RePlus (r : regexp)
| ReConcat (r1 r2 : regexp).

Definition inClass (ranges : list (ascii * ascii)) (c : ascii) : bool :=
  existsb (λ r, (N_of_ascii r.1 <=? N_of_ascii c) && (N_of_ascii c <=? N_of_ascii r.2))
          ranges.

(** A position in the text: the number of bytes before it and the bytes
    after it. *)
Definition Pos : Set := nat * list ascii.

Fixpoint plusEnds (step : Pos → list Pos) (fuel : nat) (p : Pos) : list Pos :=
  match fuel with
  | O => []
  | S fuel' => let once := step p in once ++ flat_map (plusEnds step fuel') once
  end.

(** The positions at which a match of [r] that starts at [p] can end. *)
Fixpoint matchEnds (r : regexp) (p : Pos) : list Pos :=
  match r with
  | ReBeginText => if bool_decide (p.1 = 0%nat) then [p] else []
  | ReEndText => match p.2 with [] => [p] | _ => [] end
  | ReClass ranges =>
      match p.2 with
      | c :: rest => if inClass ranges c then [(S p.1, rest)] else []
      | [] => []
      end
  | RePlus r' => plusEnds (matchEnds r') (S (length p.2)) p
  | ReConcat r1 r2 => flat_map (matchEnds r2) (matchEnds r1 p)
  end.

(** [re.MatchString(s)]: some substring of [s] matches [re]. *)
Fixpoint searchFrom (re : regexp) (n : nat) (s : list ascii) : bool :=
  match matchEnds re (n, s) with
  | _ :: _ => true
  | [] => match s with
          | [] => false
          | _ :: rest => searchFrom re (S n) rest
          end
  end.

Definition MatchString (re : regexp) (s : string) : bool :=
  searchFrom re 0 (list_ascii_of_string s).

(** ** go/datas/dataset.go *)

(** The ranges of the character class of [DatasetRe]: letters, digits,
    hyphen, underscore and slash. *)
Definition datasetNameRanges : list (ascii * ascii) :=
  [("a", "z"); ("A", "Z"); ("0", "9"); ("-", "-"); ("_", "_"); ("/", "/")]%char.

(** [DatasetRe]: one or more characters of the class. *)
Definition DatasetRe : regexp := RePlus (ReClass datasetNameRanges).

(** One character of the class, the step that [DatasetRe] repeats. *)
Definition nameCharStep : Pos → list Pos := matchEnds (ReClass datasetNameRanges).

(** [regexp.MustCompile("^" + DatasetRe.String() + "$")] *)
Definition DatasetFullRe : regexp :=
  ReConcat ReBeginText (ReConcat DatasetRe ReEndText).

Definition IsValidDatasetName (name : string) : bool :=
  MatchString DatasetFullRe name.

(** The characters that the claim about dataset names allows: an ASCII
    letter, a digit, a hyphen, an underscore or a forward slash. *)
Definition isAsciiLetter (c : ascii) : bool :=
  let n := N_of_ascii c in
  ((97 <=? n) && (n <=? 122)) || ((65 <=? n) && (n <=? 90)).
Definition isAsciiDigit (c : ascii) : bool :=
  let n := N_of_ascii c in (48 <=? n) && (n <=? 57).
Definition isDatasetNameChar (c : ascii) : bool :=
  isAsciiLetter c || isAsciiDigit c
  || bool_decide (c = "-"%char) || bool_decide (c = "_"%char) || bool_decide (c = "/"%char).

(** [Dataset]: a named commit within a database.  The methods below read the
    database only through [TargetValue]: it is the store of values by hash.
    [headRef] is [None] for the zero [types.Ref{}]. *)
Record Dataset : Type := mkDataset {
  store : gmap Hash Struct;
  id : string;
  headRef : option Ref;
}.

Definition Database (ds : Dataset) : gmap Hash Struct := store ds.

Definition ID (ds : Dataset) : string := id ds.

(** The format of the message of [Head] and [HeadRef], with its quotation
    marks around the name. *)
Definition datasetDoesNotExist : string :=
  ("Dataset " ++ String "034" ("%s" ++ String "034" " does not exist"))%string.

(** [MaybeHeadRef]: the pair of [ds.headRef] and of whether it differs from
    [types.Ref{}] is [Some] of the reference, or [None]. *)
Definition MaybeHeadRef (ds : Dataset) : option Ref := headRef ds.

(** [MaybeHead]; [Ok None] is the pair of [types.Struct{}] and false. *)
Definition MaybeHead (ds : Dataset) : Res (option Struct) :=
  match MaybeHeadRef ds with
  | Some r => c ⇐ TargetValue r (Database ds) ;; Ok (Some c)
  | None => Ok None
  end.

Definition Head (ds : Dataset) : Res Struct :=
  o ⇐ MaybeHead ds ;;
  match o with
  | Some c => Ok c
  | None => Panic datasetDoesNotExist
  end.

Definition HeadRef (ds : Dataset) : Res Ref :=
  match MaybeHeadRef ds with
  | Some r => Ok r
  | None => Panic datasetDoesNotExist
  end.

(** [MaybeHeadValue]; [Ok None] is the pair of nil and false. *)
Definition MaybeHeadValue (ds : Dataset) : Res (option Value) :=
  o ⇐ MaybeHead ds ;;
  match o with
  | Some c => v ⇐ Get c ValueField ;; Ok (Some v)
  | None => Ok None
  end.

Definition HeadValue (ds : Dataset) : Res Value :=
  c ⇐ Head ds ;;
  Get c ValueField.


(** ** Histories and auxiliary notions of the statements *)

(** A chain of commits built with [NewCommit]: the first one has no parents,
    each later one has the reference to the one before as its only parent.
    An element of the chain is the pair of its value and its meta. *)
Definition commitChain `{Hasher} (first : Value * Value) (rest : list (Value * Value))
    : Res Struct :=
  foldl (λ prev vm, c ⇐ prev ;; NewCommit vm.1 [MRef (NewRef c)] vm.2)
        (NewCommit first.1 [] first.2) rest.

(** The type [struct Commit { meta: m, parents: p, value: v }]. *)
Definition commitStruct (m p v : Type_) : Type_ :=
  StructDesc "Commit" [(MetaField, m); (ParentsField, p); (ValueField, v)].

(** [Set<Ref<Cycle<0>>>] *)
Definition cyclicParents : Type_ := MakeSetType (MakeRefType (MakeCycleType 0)).

(** Modelled from the spec: a structural subtype check, used as the
    instance of [types.IsSubtype] on which examples are evaluated.  Every
    type is a subtype of [Value]; a type is a subtype of a union when it is a
    subtype of a member (a union, when each of its members is); compound
    types of the same kind are compared element by element; a struct type
    needs the name of the required one, unless that is empty, and each of
    its fields with a subtype of the field's type.  A back-reference
    [Cycle<n>] is only a subtype of itself. *)
Fixpoint structuralSubtype (required concrete : Type_) {struct required} : bool :=
  Equals required concrete ||
  match required with
  | PrimitiveDesc k => bool_decide (k = ValueKind)
  | CompoundDesc UnionKind elems =>
      match concrete with
      | CompoundDesc UnionKind cs =>
          forallb (λ c, existsb (λ t, structuralSubtype t c) elems) cs
      | _ => existsb (λ t, structuralSubtype t concrete) elems
      end
  | CompoundDesc k elems =>
      match concrete with
      | CompoundDesc k' cs =>
          bool_decide (k = k') &&
          (fix all2 (l l' : list Type_) {struct l} : bool :=
             match l, l' with
             | [], [] => true
             | x :: xs, y :: ys => structuralSubtype x y && all2 xs ys
             | _, _ => false
             end) elems cs
      | _ => false
      end
  | StructDesc name fields =>
      match concrete with
      | StructDesc cname cfields =>
          (bool_decide (name = ""%string) || bool_decide (name = cname)) &&
          (fix all (l : list (string * Type_)) {struct l} : bool :=
             match l with
             | [] => true
             | (f, t) :: l' =>
                 match Field cfields f with
                 | Some ct => structuralSubtype t ct && all l'
                 | None => false
                 end
             end) fields
      | _ => false
      end
  | CycleDesc _ => false
  end.

(** The frontiers of [FindCommonAncestor] after [n] iterations none of which
    found a shared reference (and none of which panicked). *)
Fixpoint frontiersAfter (range : RangeOrder) (n : nat) (c1Q c2Q : list Ref)
    (vr : gmap Hash Struct) : option (list Ref * list Ref) :=
  match n with
  | O => Some (c1Q, c2Q)
  | S n' =>
      if negb (qEmpty c1Q) && negb (qEmpty c2Q) then
        match commonAncestorStep range c1Q c2Q vr with
        | Ok (inr (c1Q', c2Q')) => frontiersAfter range n' c1Q' c2Q' vr
        | _ => None
        end
      else None
  end.

(** A visiting order of [range] visits every entry once. *)
Definition rangeOk (range : RangeOrder) : Prop := ∀ l, range l ≡ₚ l.


(** The parent references of a commit, when it has a [parents] field that
    holds a set of references. *)
Definition memberRef (m : Member) : option Ref :=
  match m with
  | MRef r => Some r
  | MOther _ _ _ => None
  end.

Definition parentsOf (c : Struct) : option (list Ref) :=
  match Get c ParentsField with
  | Ok (SetValue ms) => mapM memberRef ms
  | _ => None
  end.

(** The height invariant of the data model for a reference: it resolves, to
    a commit, and its height is one more than the greatest height of the
    references contained in the commit. *)
Definition refOk (vr : gmap Hash Struct) (r : Ref) : bool :=
  match vr !! TargetHash r with
  | Some c => bool_decide (is_Some (parentsOf c)) && (Height r =? 1 + maxChunkHeight c)
  | None => false
  end.

Definition commitOk (vr : gmap Hash Struct) (c : Struct) : bool :=
  match parentsOf c with
  | Some ps => forallb (refOk vr) ps
  | None => false
  end.

(** A store of commits in which every parent reference satisfies the height
    invariant. *)
Definition storeOk (vr : gmap Hash Struct) : bool :=
  forallb (λ hc, commitOk vr hc.2) (map_to_list vr).

(** The references pushed by [parentsToQueue]: the parents of the targets
    of [refs]. *)
Definition isParentOf (vr : gmap Hash Struct) (refs : list Ref) (p : Ref) : Prop :=
  ∃ r c ps, r ∈ refs ∧ vr !! TargetHash r = Some c ∧ parentsOf c = Some ps ∧ p ∈ ps.

(** The invariant of a queue of [FindCommonAncestor]: its references satisfy
    the height invariant and are sorted, tallest first. *)
Definition queueOk (vr : gmap Hash Struct) (q : list Ref) : Prop :=
  Forall (λ r, refOk vr r = true) q ∧ StronglySorted taller q.

(** [descends vr n a r]: [r] is reached from the reference [a] along [n]
    parent edges. *)
Inductive descends (vr : gmap Hash Struct) : nat → Ref → Ref → Prop :=
| descends_refl a : descends vr 0 a a
| descends_step n a c ps p r :
    vr !! TargetHash a = Some c → parentsOf c = Some ps → p ∈ ps →
    descends vr n p r → descends vr (S n) a r.

(** [ancestorOf vr c r]: [r] is a parent reference of the commit [c] or of
    one of its ancestors. *)
Definition ancestorOf (vr : gmap Hash Struct) (c : Struct) (r : Ref) : Prop :=
  ∃ ps p n, parentsOf c = Some ps ∧ p ∈ ps ∧ descends vr n p r.

Definition heightOfMember (m : Member) : N :=
  match m with
  | MRef r => Height r
  | MOther _ _ _ => 0
  end.

(** The union of the parents of the commits of a frontier whose reference is
    taller than [h]. *)
Definition parentsOfTaller (vr : gmap Hash Struct) (frontier : list Member) (h : N)
    (m : Member) : Prop :=
  ∃ r c ps p, MRef r ∈ frontier ∧ h < Height r ∧ vr !! TargetHash r = Some c ∧
    parentsOf c = Some ps ∧ p ∈ ps ∧ m = MRef p.

(** The alternatives of a type: the members of a union, the type itself
    otherwise. *)
Definition unionMembers (t : Type_) : list Type_ :=
  match t with
  | CompoundDesc UnionKind ts => ts
  | _ => [t]
  end.

(** The type of the [parents] field of a struct. *)
Definition parentsFieldType (c : Struct) : option Type_ :=
  match sType c with
  | StructDesc _ fields => Field fields ParentsField
  | _ => None
  end.

(** The [parents] field type that the type-algebra claim describes: a union
    with one explicit [Commit] struct per combination of value and meta type,
    each under [Ref], in a [Set]; the [parents] field types of the member
    structs are left open, and the union may stand around or inside [Ref]. *)
Definition unionOfCommitStructs (combos : list (Type_ * Type_)) (t : Type_) : Prop :=
  ∃ ps : list Type_, length ps = length combos ∧
    let structs := zip_with (λ vm p, commitStruct vm.2 p vm.1) combos ps in
    t = MakeSetType (MakeUnionType (MakeRefType <$> structs)) ∨
    t = MakeSetType (MakeRefType (MakeUnionType structs)).

(** The maximally general commit type as the subtype claim writes it:
    [Commit{meta: Value, parents: Set<Ref<Struct{}>>, value: Value}]. *)
Definition claimedValueCommitType : Type_ :=
  commitStruct ValueType (MakeSetType (MakeRefType EmptyStructType)) ValueType.

(** ** A sample store

    Commits with a number as value and an empty struct as meta; the sample
    store hashes a commit to the number that stands for its value. *)

Definition sampleHasher : Hasher :=
  λ s, match sValues s with
       | [_; _; Opaque _ _ d] => d
       | _ => 0
       end.

Definition sampleMeta : Value := Opaque EmptyStructType 0 0.
Definition numberValue (d : N) : Value := Opaque NumberType 0 d.
Definition stringValue (d : N) : Value := Opaque StringType 0 d.

Definition sampleCommitType : Type_ :=
  commitStruct EmptyStructType cyclicParents NumberType.

Definition sampleCommit (d : N) (parents : list Ref) : Struct :=
  NewStructWithType sampleCommitType
    [sampleMeta; SetValue (MRef <$> parents); numberValue d].

Definition sampleRef (c : Struct) : Ref := @NewRef sampleHasher c.

(** Two roots, a line [sW -> sX -> sY -> sR1] with the extra edge
    [sX -> sR1], a second child [sV] of [sR1], and two merges [sM1] and [sM2]
    of the two roots. *)
Definition sR1 : Struct := sampleCommit 1 [].
Definition sR2 : Struct := sampleCommit 2 [].
Definition sY : Struct := sampleCommit 3 [sampleRef sR1].
Definition sX : Struct := sampleCommit 4 [sampleRef sY; sampleRef sR1].
Definition sV : Struct := sampleCommit 5 [sampleRef sR1].
Definition sW : Struct := sampleCommit 6 [sampleRef sX].
Definition sM1 : Struct := sampleCommit 7 [sampleRef sR1; sampleRef sR2].
Definition sM2 : Struct := sampleCommit 8 [sampleRef sR1; sampleRef sR2].

Definition sampleStore : gmap Hash Struct :=
  list_to_map ((λ c, (sampleHasher c, c)) <$> [sR1; sR2; sY; sX; sV; sW; sM1; sM2]).

(** A struct that is not a commit. *)
Definition notACommit : Struct :=
  NewStructWithType (StructDesc "Point" [("x"%string, NumberType)]) [numberValue 0].

(** Two visiting orders of [range]. *)
Definition rangeAsListed : RangeOrder := λ l, l.
Definition rangeReversed : RangeOrder := λ l, reverse l.

(** A frontier of [CommitDescendsFrom] whose members are references that
    satisfy the height invariant. *)
Definition frontierOk (vr : gmap Hash Struct) (frontier : list Member) : bool :=
  forallb (λ m, match memberRef m with
                | Some r => refOk vr r
                | None => false
                end) frontier.

(** The parents pushed by [parentsToQueue] for [refs], in the order of the
    pushes; a reference whose target is not a commit of the store pushes
    none. *)
Definition allParents (vr : gmap Hash Struct) (refs : list Ref) : list Ref :=
  flat_map (λ r, default [] (vr !! TargetHash r ≫= parentsOf)) refs.

(** [reachable vr q x]: the reference [x] is a reference of the queue [q] or
    is reached from one along parent edges. *)
Definition reachable (vr : gmap Hash Struct) (q : list Ref) (x : Ref) : Prop :=
  ∃ y n, y ∈ q ∧ descends vr n y x.

(** A dataset of the sample store with [sW] as its head, and one without a
    head. *)
Definition sampleDataset : Dataset :=
  {| store := sampleStore; id := "main"; headRef := Some (sampleRef sW) |}.
Definition emptyDataset : Dataset :=
  {| store := sampleStore; id := "none"; headRef := None |}.

(** * Proofs

    ** Structural types *)

Lemma Equals_eq a b : Equals a b = true ↔ a = b.
Proof.
  revert b. induction a as [k|k l IH|n fs IH|n] using Type_ind; intros b; destruct b; simpl;
    try (split; [discriminate|congruence]).
  - rewrite bool_decide_eq_true. split; congruence.
  - rewrite andb_true_iff, bool_decide_eq_true.
    revert ElemTypes. induction IH as [|x xs Hx Hxs IHl]; intros [|y ys].
    + split; [intros [-> _]; done| intros [= ->]; done].
    + split; [intros [_ ?]; done | intros [= _]].
    + split; [intros [_ ?]; done | intros [= _]].
    + specialize (IHl ys). rewrite andb_true_iff, Hx.
      split.
      * intros [-> [-> H2]]. destruct IHl as [IH1 _]. specialize (IH1 (conj eq_refl H2)). congruence.
      * intros [= -> -> ->]. split; [done|]. split; [done|]. by apply IHl.
  - rewrite andb_true_iff, bool_decide_eq_true.
    revert fields. induction IH as [|[f x] xs Hx Hxs IHl]; intros [|[g y] ys].
    + split; [intros [-> _]; done| intros [= ->]; done].
    + split; [intros [_ ?]; done | intros [= _]].
    + split; [intros [_ ?]; done | intros [= _]].
    + specialize (IHl ys). rewrite !andb_true_iff, bool_decide_eq_true. simpl in Hx. rewrite Hx.
      split.
      * intros [-> [[-> ->] H2]]. destruct IHl as [IH1 _]. specialize (IH1 (conj eq_refl H2)). congruence.
      * intros [= -> -> -> ->]. split; [done|]. split; [done|]. by apply IHl.
  - rewrite bool_decide_eq_true. split; congruence.
Qed.

Lemma Equals_refl t : Equals t t = true.
Proof. by apply Equals_eq. Qed.

Lemma Equals_neq a b : a ≠ b → Equals a b = false.
Proof. intros H. destruct (Equals a b) eqn:E; [|done]. by apply Equals_eq in E. Qed.

Lemma existsb_Equals t l : existsb (Equals t) l = true ↔ t ∈ l.
Proof.
  rewrite existsb_exists. split.
  - intros (x & Hx & E). apply Equals_eq in E as ->. by apply list_elem_of_In.
  - intros Hin. exists t. split; [by apply list_elem_of_In | apply Equals_refl].
Qed.

Lemma flattenUnionTypes_leaf t seen :
  Kind t ≠ UnionKind →
  flattenUnionTypes t seen = if existsb (Equals t) seen then seen else seen ++ [t].
Proof. destruct t as [k|k l|n fs|n]; try done. destruct k; simpl; done. Qed.

(** Collecting non-union types keeps what was seen and adds exactly the new ones. *)
Lemma flatten_leaves_elem l : ∀ seen x,
  Forall (λ t, Kind t ≠ UnionKind) l →
  x ∈ foldl (λ seen t, flattenUnionTypes t seen) seen l ↔ x ∈ seen ∨ x ∈ l.
Proof.
  induction l as [|t l IH]; intros seen x Hl; simpl.
  - rewrite elem_of_nil. tauto.
  - inversion Hl as [|? ? Ht Hl']; subst.
    rewrite IH by done. rewrite flattenUnionTypes_leaf by done.
    rewrite elem_of_cons.
    destruct (existsb (Equals t) seen) eqn:E.
    + apply existsb_Equals in E. split; [tauto|]. intros [?|[->|?]]; tauto.
    + rewrite elem_of_app, list_elem_of_singleton. tauto.
Qed.

Lemma flatten_leaves_same t l : ∀ seen,
  Kind t ≠ UnionKind → Forall (λ x, x = t) l → t ∈ seen →
  foldl (λ seen t, flattenUnionTypes t seen) seen l = seen.
Proof.
  induction l as [|x l IH]; intros seen Ht Hl Hin; simpl; [done|].
  inversion Hl; subst. rewrite flattenUnionTypes_leaf by done.
  assert (existsb (Equals t) seen = true) as -> by by apply existsb_Equals.
  by apply IH.
Qed.

Lemma MakeUnionType_same t l :
  Kind t ≠ UnionKind → Forall (λ x, x = t) l → MakeUnionType (l ++ [t]) = t.
Proof.
  intros Ht Hl. unfold MakeUnionType.
  destruct l as [|x l]; simpl.
  - rewrite flattenUnionTypes_leaf by done. done.
  - inversion Hl; subst. rewrite flattenUnionTypes_leaf by done. simpl.
    rewrite flatten_leaves_same with (t := t); try done.
    + apply Forall_app. split; [done| by constructor].
    + by apply list_elem_of_singleton.
Qed.

Lemma MakeUnionType_single t : Kind t ≠ UnionKind → MakeUnionType [t] = t.
Proof. intros. by apply (MakeUnionType_same t []). Qed.

Lemma MakeUnionType_wider t l :
  Kind t ≠ UnionKind → Forall (λ x, Kind x ≠ UnionKind) l →
  (∃ x, x ∈ l ∧ x ≠ t) →
  ∃ ts, MakeUnionType (l ++ [t]) = CompoundDesc UnionKind ts.
Proof.
  intros Ht Hl (x & Hx & Hne). unfold MakeUnionType.
  assert (Hall : Forall (λ x, Kind x ≠ UnionKind) (l ++ [t])).
  { apply Forall_app. split; [done | by constructor]. }
  pose proof (flatten_leaves_elem (l ++ [t]) [] x Hall) as H1.
  pose proof (flatten_leaves_elem (l ++ [t]) [] t Hall) as H2.
  destruct (foldl _ [] (l ++ [t])) as [|a [|b r]] eqn:E.
  - by exists [].
  - exfalso.
    assert (x = a) as ->. { apply list_elem_of_singleton, H1. right. apply elem_of_app. by left. }
    assert (t = a) as ->. { apply list_elem_of_singleton, H2. right. apply elem_of_app. right. by apply list_elem_of_singleton. }
    done.
  - by eexists.
Qed.

Lemma valueCommitType_eq :
  valueCommitType = commitStruct EmptyStructType cyclicParents ValueType.
Proof. reflexivity. Qed.

Lemma makeCommitType_cyclic vt pvs mt pms :
  MakeUnionType (pvs ++ [vt]) = vt → MakeUnionType (pms ++ [mt]) = mt →
  makeCommitType vt pvs mt pms = commitStruct mt cyclicParents vt.
Proof.
  intros Hv Hm. unfold makeCommitType. rewrite Hv, Hm, !Equals_refl. reflexivity.
Qed.

Lemma makeCommitType_union vt pvs mt pms :
  MakeUnionType (pvs ++ [vt]) ≠ vt ∨ MakeUnionType (pms ++ [mt]) ≠ mt →
  makeCommitType vt pvs mt pms =
    commitStruct mt
      (MakeSetType (MakeRefType
         (commitStruct (MakeUnionType (pms ++ [mt])) cyclicParents
                       (MakeUnionType (pvs ++ [vt])))))
      vt.
Proof.
  intros H. unfold makeCommitType.
  destruct H as [H|H]; apply Equals_neq in H; rewrite H; [|rewrite andb_false_r]; reflexivity.
Qed.

Lemma MakeUnionType_pair a b :
  Kind a ≠ UnionKind → Kind b ≠ UnionKind → a ≠ b →
  MakeUnionType [a; b] = CompoundDesc UnionKind [a; b].
Proof.
  intros Ha Hb Hne. unfold MakeUnionType. cbn [foldl].
  rewrite (flattenUnionTypes_leaf a) by done. cbn [existsb app].
  rewrite (flattenUnionTypes_leaf b) by done. cbn [existsb].
  rewrite (Equals_neq b a) by congruence. reflexivity.
Qed.

(** The alternatives of the union of types none of which is a union are
    these types. *)
Lemma MakeUnionType_members l x :
  Forall (λ t, Kind t ≠ UnionKind) l →
  x ∈ unionMembers (MakeUnionType l) ↔ x ∈ l.
Proof.
  intros Hl. unfold MakeUnionType.
  pose proof (flatten_leaves_elem l [] x Hl) as Hx.
  destruct (foldl _ [] l) as [|a [|b r]] eqn:E.
  - simpl. rewrite Hx. rewrite elem_of_nil. tauto.
  - assert (Ha : a ∈ l).
    { pose proof (flatten_leaves_elem l [] a Hl) as Hq. rewrite E in Hq.
      destruct (proj1 Hq) as [Hn|]; [apply list_elem_of_here| |done].
      by apply elem_of_nil in Hn. }
    eapply Forall_forall in Hl; [|exact Ha].
    assert (unionMembers a = [a]) as ->.
    { destruct a as [k|k ts|n fs|n]; try done. by destruct k. }
    rewrite Hx. rewrite elem_of_nil. tauto.
  - simpl. rewrite Hx. rewrite elem_of_nil. tauto.
Qed.

(** ** The commit type *)

Lemma bindRes_Ok {A B} (m : Res A) (k : A → Res B) b :
  bindRes m k = Ok b ↔ ∃ a, m = Ok a ∧ k a = Ok b.
Proof.
  destruct m; simpl; split.
  - eauto.
  - by intros (? & [= ->] & ?).
  - done.
  - by intros (? & [=] & _).
  - done.
  - by intros (? & [=] & _).
Qed.

(** Claim C7, amended.  For every type [t], [IsCommitType t] is true if and
    only if [t] is a subtype of the type that [valueCommitType] evaluates to,
    [struct Commit {meta: struct {}, parents: Set<Ref<Cycle<0>>>, value: Value}],
    whatever the subtype check of the type system is. *)
Theorem IsCommitType_bound `{Subtyping} (t : Type_) :
  IsCommitType t = true ↔
  IsSubtype (commitStruct EmptyStructType cyclicParents ValueType) t = true.
Proof. unfold IsCommitType. by rewrite valueCommitType_eq. Qed.

(** Claim C7 as stated fails: with the bound
    [Commit{meta: Value, parents: Set<Ref<Struct{}>>, value: Value}] the
    equivalence breaks at that type itself, which is a subtype of itself and
    is not a commit type, its [meta] not being a struct. *)
Lemma IsCommitType_claimed_bound_fails :
  ¬ (∀ t, @IsCommitType structuralSubtype t = true ↔
          structuralSubtype claimedValueCommitType t = true).
Proof.
  intros H. specialize (H claimedValueCommitType) as [_ H].
  specialize (H eq_refl). vm_compute in H. discriminate.
Qed.

(** Claim C1, amended.  When some parent exposes a value type or a meta type
    different from the new commit's (all of them types of values, none a
    union), [NewCommit] returns a commit whose [parents] field has the type
    [Set<Ref<struct Commit {meta: MU, parents: Set<Ref<Cycle<0>>>, value: VU}>>]:
    one explicit Commit struct, whose [meta] and [value] fields are the
    union [MU] of the meta types and the union [VU] of the value types of
    the parents and of the new commit (a union of one type being that
    type). *)
Theorem NewCommit_widened_parents (value meta : Value) (parents : list Member)
    (pvs pms : list Type_) :
  valueTypesFromParents parents ValueField = Ok pvs →
  valueTypesFromParents parents MetaField = Ok pms →
  Kind (typeOf value) ≠ UnionKind → Kind (typeOf meta) ≠ UnionKind →
  Forall (λ t, Kind t ≠ UnionKind) pvs → Forall (λ t, Kind t ≠ UnionKind) pms →
  (∃ t, t ∈ pvs ∧ t ≠ typeOf value) ∨ (∃ m, m ∈ pms ∧ m ≠ typeOf meta) →
  ∃ c MU VU, NewCommit value parents meta = Ok c ∧
       parentsFieldType c =
         Some (MakeSetType (MakeRefType (commitStruct MU cyclicParents VU))) ∧
       (∀ m, m ∈ unionMembers MU ↔ m ∈ pms ∨ m = typeOf meta) ∧
       (∀ t, t ∈ unionMembers VU ↔ t ∈ pvs ∨ t = typeOf value).
Proof.
  intros Hv Hm HT HM Hpvs Hpms Hdiff.
  unfold NewCommit. rewrite Hv, Hm. cbn [bindRes].
  exists (NewStructWithType
            (makeCommitType (typeOf value) pvs (typeOf meta) pms)
            [meta; SetValue parents; value]),
         (MakeUnionType (pms ++ [typeOf meta])), (MakeUnionType (pvs ++ [typeOf value])).
  split; [reflexivity|].
  assert (Hmem : ∀ l t x, Forall (λ t, Kind t ≠ UnionKind) l → Kind t ≠ UnionKind →
            x ∈ unionMembers (MakeUnionType (l ++ [t])) ↔ x ∈ l ∨ x = t).
  { intros l t x Hl Ht. rewrite MakeUnionType_members.
    - by rewrite elem_of_app, list_elem_of_singleton.
    - apply Forall_app. split; [done | by constructor]. }
  split; [|split; intros x; by apply Hmem].
  unfold parentsFieldType. cbn [sType].
  rewrite makeCommitType_union; [reflexivity|].
  destruct Hdiff as [Hd|Hd].
  - left. destruct (MakeUnionType_wider _ _ HT Hpvs Hd) as [ts ->].
    intros E. apply HT. by rewrite <- E.
  - right. destruct (MakeUnionType_wider _ _ HM Hpms Hd) as [ts ->].
    intros E. apply HM. by rewrite <- E.
Qed.

(** The amended claim C1 on a commit of a string on top of a commit of a
    number. *)
Lemma NewCommit_widened_parents_witness :
  ∃ c MU VU, NewCommit (stringValue 2) [MRef (sampleRef sR1)] sampleMeta = Ok c ∧
       parentsFieldType c =
         Some (MakeSetType (MakeRefType (commitStruct MU cyclicParents VU))) ∧
       (∀ m, m ∈ unionMembers MU ↔ m ∈ [EmptyStructType] ∨ m = typeOf sampleMeta) ∧
       (∀ t, t ∈ unionMembers VU ↔ t ∈ [NumberType] ∨ t = typeOf (stringValue 2)).
Proof.
  apply (NewCommit_widened_parents (stringValue 2) sampleMeta [MRef (sampleRef sR1)]
           [NumberType] [EmptyStructType]).
  - reflexivity.
  - reflexivity.
  - simpl. discriminate.
  - simpl. discriminate.
  - repeat constructor; simpl; discriminate.
  - repeat constructor; simpl; discriminate.
  - left. exists NumberType. split; [apply list_elem_of_here | simpl; discriminate].
Defined.

(** Claim C1 as stated fails: for a string committed on top of a number the
    [parents] field type is not a union of the two Commit structs of
    (Number, struct {}) and (String, struct {}). *)
Lemma NewCommit_union_of_structs_fails :
  ∃ c pt, NewCommit (stringValue 2) [MRef (sampleRef sR1)] sampleMeta = Ok c ∧
    valueTypesFromParents [MRef (sampleRef sR1)] ValueField = Ok [NumberType] ∧
    valueTypesFromParents [MRef (sampleRef sR1)] MetaField = Ok [EmptyStructType] ∧
    NumberType ≠ typeOf (stringValue 2) ∧
    parentsFieldType c = Some pt ∧
    ¬ unionOfCommitStructs
        [(NumberType, EmptyStructType); (StringType, EmptyStructType)] pt.
Proof.
  eexists. eexists. split; [reflexivity|]. split; [reflexivity|]. split; [reflexivity|].
  split; [discriminate|]. split; [reflexivity|].
  intros (ps & Hlen & H).
  destruct ps as [|p1 [|p2 [|? ?]]]; try discriminate Hlen.
  cbn [zip_with fmap list_fmap fst snd] in H.
  assert (Hne : commitStruct EmptyStructType p1 NumberType ≠
                commitStruct EmptyStructType p2 StringType) by (intros [=]).
  destruct H as [H|H].
  - rewrite MakeUnionType_pair in H; [discriminate H | discriminate | discriminate |].
    intros [=].
  - rewrite MakeUnionType_pair in H; [discriminate H | discriminate | discriminate |].
    intros [=].
Qed.

Lemma valueTypesFromParents_nil f : valueTypesFromParents [] f = Ok [].
Proof. reflexivity. Qed.

Lemma valueTypesFromParents_single r m p v :
  TargetType r = commitStruct m p v →
  valueTypesFromParents [MRef r] ValueField = Ok [v] ∧
  valueTypesFromParents [MRef r] MetaField = Ok [m].
Proof.
  intros Hr. unfold valueTypesFromParents.
  cbn [typeOf fmap list_fmap typeOfMember]. rewrite Hr.
  rewrite MakeUnionType_single by done. split; reflexivity.
Qed.

(** One step: when the parents expose only the value and meta type of the new
    commit, the parents field is the cyclic form. *)
Lemma NewCommit_cyclic (value meta : Value) (parents : list Member) (pvs pms : list Type_) :
  valueTypesFromParents parents ValueField = Ok pvs →
  valueTypesFromParents parents MetaField = Ok pms →
  MakeUnionType (pvs ++ [typeOf value]) = typeOf value →
  MakeUnionType (pms ++ [typeOf meta]) = typeOf meta →
  ∃ c, NewCommit value parents meta = Ok c ∧
       sType c = commitStruct (typeOf meta) cyclicParents (typeOf value).
Proof.
  intros Hv Hm Hvu Hmu. unfold NewCommit. rewrite Hv, Hm. cbn [bindRes].
  eexists. split; [reflexivity|]. cbn [sType]. by apply makeCommitType_cyclic.
Qed.

(** Claim C2.  Every chain of commits built with [NewCommit] from values of
    one type [T] and metas of one type [M] (types of values: not unions)
    ends, whatever its length, in a commit of type
    [struct Commit {meta: M, parents: Set<Ref<Cycle<0>>>, value: T}], whose
    [parents] field has the cyclic form [Set<Ref<Cycle<0>>>]. *)
Theorem commitChain_cyclic `{Hasher} (T M : Type_) (first : Value * Value)
    (rest : list (Value * Value)) :
  Kind T ≠ UnionKind → Kind M ≠ UnionKind →
  typeOf first.1 = T → typeOf first.2 = M →
  Forall (λ vm, typeOf vm.1 = T ∧ typeOf vm.2 = M) rest →
  ∃ c, commitChain first rest = Ok c ∧
       sType c = commitStruct M cyclicParents T ∧
       parentsFieldType c = Some cyclicParents.
Proof.
  intros HT HM Hv Hm Hrest.
  assert (Hgoal : ∃ c, commitChain first rest = Ok c ∧ sType c = commitStruct M cyclicParents T).
  2:{ destruct Hgoal as (c & Hc & Ht). exists c. split; [done|]. split; [done|].
      unfold parentsFieldType. rewrite Ht. reflexivity. }
  unfold commitChain.
  destruct (NewCommit_cyclic first.1 first.2 [] [] []) as (c0 & Hc0 & Ht0);
    try apply valueTypesFromParents_nil.
  { rewrite Hv. by apply MakeUnionType_single. }
  { rewrite Hm. by apply MakeUnionType_single. }
  rewrite Hc0. rewrite Hv, Hm in Ht0. clear Hc0 Hv Hm.
  revert c0 Ht0. induction Hrest as [|[v m] rest [Hv Hm] Hrest IH]; intros c0 Ht0.
  - exists c0. done.
  - cbn [foldl bindRes fst snd]. simpl in Hv, Hm.
    destruct (valueTypesFromParents_single (NewRef c0) M cyclicParents T) as [Hpv Hpm].
    { done. }
    destruct (NewCommit_cyclic v m [MRef (NewRef c0)] [T] [M]) as (c1 & Hc1 & Ht1); try done.
    { rewrite Hv. by apply (MakeUnionType_same T [T]); [|repeat constructor]. }
    { rewrite Hm. by apply (MakeUnionType_same M [M]); [|repeat constructor]. }
    rewrite Hc1. apply IH. by rewrite Ht1, Hv, Hm.
Qed.

(** Claim C2 on a chain of three commits of numbers. *)
Lemma commitChain_cyclic_witness :
  ∃ c, @commitChain sampleHasher (numberValue 1, sampleMeta)
         [(numberValue 2, sampleMeta); (numberValue 3, sampleMeta)] = Ok c ∧
       sType c = commitStruct EmptyStructType cyclicParents NumberType ∧
       parentsFieldType c = Some cyclicParents.
Proof.
  apply (@commitChain_cyclic sampleHasher NumberType EmptyStructType).
  - simpl; discriminate.
  - simpl; discriminate.
  - reflexivity.
  - reflexivity.
  - repeat constructor.
Defined.

(** ** Dataset names *)

Lemma inClass_isDatasetNameChar c : inClass datasetNameRanges c = isDatasetNameChar c.
Proof. destruct c as [[] [] [] [] [] [] [] []]; vm_compute; reflexivity. Qed.

Lemma nameCharStep_cons n c s :
  nameCharStep (n, c :: s) = if isDatasetNameChar c then [(S n, s)] else [].
Proof. unfold nameCharStep. cbn [matchEnds fst snd]. by rewrite inClass_isDatasetNameChar. Qed.

Lemma nameCharStep_nil n : nameCharStep (n, []) = [].
Proof. reflexivity. Qed.

(** A repetition that reaches the end of the text has consumed a non-empty
    text of allowed characters. *)
Lemma plusEnds_end fuel : ∀ n s m,
  (m, []) ∈ plusEnds nameCharStep fuel (n, s) →
  s ≠ [] ∧ Forall (λ c, isDatasetNameChar c = true) s.
Proof.
  induction fuel as [|fuel IH]; intros n s m Hin; cbn [plusEnds] in Hin.
  - by apply elem_of_nil in Hin.
  - destruct s as [|c s]; [rewrite nameCharStep_nil in Hin; by apply elem_of_nil in Hin|].
    rewrite nameCharStep_cons in Hin.
    destruct (isDatasetNameChar c) eqn:Hc; [|by apply elem_of_nil in Hin].
    cbn [flat_map app] in Hin. rewrite app_nil_r in Hin.
    apply elem_of_cons in Hin as [Hin|Hin].
    + injection Hin as -> <-. split; [done|]. by repeat constructor.
    + apply IH in Hin as [_ Hs]. split; [done|]. by constructor.
Qed.

Lemma plusEnds_reaches_end s : ∀ fuel n,
  s ≠ [] → Forall (λ c, isDatasetNameChar c = true) s → (length s ≤ fuel)%nat →
  ∃ m, (m, []) ∈ plusEnds nameCharStep fuel (n, s).
Proof.
  induction s as [|c s IH]; intros fuel n Hne Hall Hfuel; [done|].
  destruct fuel as [|fuel]; [simpl in Hfuel; lia|].
  inversion Hall as [|? ? Hc Hs]; subst.
  cbn [plusEnds]. rewrite nameCharStep_cons, Hc. cbn [flat_map app]. rewrite app_nil_r.
  destruct s as [|c' s].
  - exists (S n). apply list_elem_of_here.
  - destruct (IH fuel (S n)) as [m Hm]; [done|done|simpl in *; lia|].
    exists m. by apply list_elem_of_further.
Qed.

Lemma matchEnds_full_later n s : n ≠ 0%nat → matchEnds DatasetFullRe (n, s) = [].
Proof.
  intros Hn. unfold DatasetFullRe. cbn [matchEnds fst].
  rewrite bool_decide_eq_false_2 by done. reflexivity.
Qed.

Lemma searchFrom_full_later s : ∀ n, n ≠ 0%nat → searchFrom DatasetFullRe n s = false.
Proof.
  induction s as [|c s IH]; intros n Hn; cbn [searchFrom];
    rewrite matchEnds_full_later by done; [done|]. by apply IH.
Qed.

Lemma matchEnds_full_start s :
  matchEnds DatasetFullRe (0%nat, s) =
  flat_map (matchEnds ReEndText) (plusEnds nameCharStep (S (length s)) (0%nat, s)).
Proof.
  unfold DatasetFullRe, DatasetRe. cbn [matchEnds fst snd].
  rewrite bool_decide_eq_true_2 by done.
  cbn [flat_map matchEnds fst snd]. rewrite app_nil_r. reflexivity.
Qed.

Lemma flat_map_end_nonempty (l : list Pos) :
  flat_map (matchEnds ReEndText) l ≠ [] ↔ ∃ m, (m, []) ∈ l.
Proof.
  induction l as [|[m r] l IH]; cbn [flat_map].
  - split; [done|]. intros [m Hm]. by apply elem_of_nil in Hm.
  - destruct r as [|c r]; cbn [matchEnds snd app].
    + split; [|done]. intros _. exists m. apply list_elem_of_here.
    + rewrite IH. split; intros [m' Hm'].
      * exists m'. by apply list_elem_of_further.
      * apply elem_of_cons in Hm' as [[=]|?]. by exists m'.
Qed.

(** Claim C10.  [IsValidDatasetName name] is true if and only if [name] is
    not empty and each of its characters is an ASCII letter, a digit, a
    hyphen, an underscore or a forward slash. *)
Theorem IsValidDatasetName_iff (name : string) :
  IsValidDatasetName name = true ↔
  name ≠ ""%string ∧
  Forall (λ c, isDatasetNameChar c = true) (list_ascii_of_string name).
Proof.
  unfold IsValidDatasetName, MatchString.
  assert (Hempty : name ≠ ""%string ↔ list_ascii_of_string name ≠ []).
  { destruct name; simpl; split; congruence. }
  rewrite Hempty. generalize (list_ascii_of_string name) as s. intros s.
  assert (Hs : searchFrom DatasetFullRe 0 s = true ↔
               matchEnds DatasetFullRe (0%nat, s) ≠ []).
  { destruct s as [|c s]; cbn [searchFrom];
      destruct (matchEnds DatasetFullRe _) eqn:E; try done.
    rewrite searchFrom_full_later by done. done. }
  rewrite Hs, matchEnds_full_start, flat_map_end_nonempty. split.
  - intros [m Hm]. by apply plusEnds_end in Hm.
  - intros [Hne Hall]. apply plusEnds_reaches_end; [done|done|lia].
Qed.

(** ** Sets, stores and heights *)

Lemma Ref_eqb_eq a b : Ref_eqb a b = true ↔ a = b.
Proof.
  unfold Ref_eqb. rewrite !andb_true_iff, !N.eqb_eq, Equals_eq.
  destruct a, b; simpl. split; [intros [[-> ->] ->]; done | intros [= -> -> ->]; done].
Qed.

Lemma Member_eqb_eq a b : Member_eqb a b = true ↔ a = b.
Proof.
  destruct a, b; simpl; try (split; [discriminate|congruence]).
  - rewrite Ref_eqb_eq. split; congruence.
  - rewrite !andb_true_iff, !N.eqb_eq, Equals_eq.
    split; [intros [[-> ->] ->]; done | intros [= -> -> ->]; done].
Qed.

Lemma Has_elem s v : Has s v = true ↔ v ∈ s.
Proof.
  unfold Has. rewrite existsb_exists. split.
  - intros (x & Hx & E). apply Member_eqb_eq in E as ->. by apply list_elem_of_In.
  - intros Hin. exists v. split; [by apply list_elem_of_In | by apply Member_eqb_eq].
Qed.

Lemma Has_false s v : Has s v = false ↔ v ∉ s.
Proof. rewrite <- Has_elem. destruct (Has s v); split; congruence. Qed.

Lemma Insert_elem vs : ∀ s m, m ∈ Insert s vs ↔ m ∈ s ∨ m ∈ vs.
Proof.
  unfold Insert. induction vs as [|v vs IH]; intros s m; cbn [foldl].
  - rewrite elem_of_nil. tauto.
  - rewrite IH, elem_of_cons. destruct (Has s v) eqn:E.
    + apply Has_elem in E. split; [tauto|]. intros [?|[-> |?]]; tauto.
    + rewrite elem_of_app, list_elem_of_singleton. tauto.
Qed.

Lemma Empty_false s : Empty s = false ↔ s ≠ [].
Proof.
  unfold Empty. destruct s; cbn; split; (done || congruence).
Qed.

Lemma qEmpty_false (q : list Ref) : qEmpty q = false ↔ q ≠ [].
Proof.
  unfold qEmpty. destruct q; cbn; split; (done || congruence).
Qed.

Lemma mapM_memberRef ms ps : mapM memberRef ms = Some ps ↔ ms = MRef <$> ps.
Proof.
  rewrite mapM_Some. split.
  - intros H. induction H as [|m p ms ps Hm _ IH]; [done|].
    destruct m; simpl in Hm; [|done]. injection Hm as ->. simpl. by f_equal.
  - intros ->. induction ps; constructor; done.
Qed.

Lemma parentsOf_Some c ps :
  parentsOf c = Some ps ↔ Get c ParentsField = Ok (SetValue (MRef <$> ps)).
Proof.
  unfold parentsOf. destruct (Get c ParentsField) as [[|ms]| |]; try (split; [done|congruence]).
  rewrite mapM_memberRef. split; congruence.
Qed.

Lemma maxN_ge l x : x ∈ l → x ≤ maxN l.
Proof.
  induction l as [|y l IH]; [by intros ?%elem_of_nil|].
  intros [-> |Hin]%elem_of_cons; simpl; [lia|]. specialize (IH Hin). lia.
Qed.

Lemma Get_elem c n v : Get c n = Ok v → v ∈ sValues c.
Proof.
  unfold Get. destruct (sType c); try done.
  destruct (fieldIndex fields n) as [i|]; simpl; [|done].
  destruct (sValues c !! i) eqn:E; [|done].
  intros [= ->]. by eapply list_elem_of_lookup_2.
Qed.

(** A parent reference is lower than one plus the chunk height of the commit. *)
Lemma parent_height c ps p :
  parentsOf c = Some ps → p ∈ ps → Height p < 1 + maxChunkHeight c.
Proof.
  intros Hps Hp. apply parentsOf_Some, Get_elem in Hps.
  assert (Height p ≤ chunksOfValue (SetValue (MRef <$> ps))).
  { simpl. apply maxN_ge. rewrite <- list_fmap_compose.
    apply list_elem_of_fmap. by exists p. }
  assert (chunksOfValue (SetValue (MRef <$> ps)) ≤ maxChunkHeight c).
  { apply maxN_ge. apply list_elem_of_fmap. eauto. }
  lia.
Qed.

Lemma refOk_inv vr r :
  refOk vr r = true →
  ∃ c ps, vr !! TargetHash r = Some c ∧ parentsOf c = Some ps ∧
          Height r = 1 + maxChunkHeight c.
Proof.
  unfold refOk. destruct (vr !! TargetHash r) as [c|]; [|done].
  rewrite andb_true_iff, bool_decide_eq_true, N.eqb_eq.
  intros [[ps Hps] Hh]. eauto.
Qed.

Lemma refOk_pos vr r : refOk vr r = true → 1 ≤ Height r.
Proof. intros (c & ps & _ & _ & ->)%refOk_inv. lia. Qed.

Lemma commitOk_inv vr c :
  commitOk vr c = true → ∃ ps, parentsOf c = Some ps ∧ Forall (λ p, refOk vr p = true) ps.
Proof.
  unfold commitOk. destruct (parentsOf c) as [ps|]; [|done].
  intros H. exists ps. split; [done|]. apply Forall_forall. intros p Hp.
  rewrite forallb_forall in H. apply H. by apply list_elem_of_In.
Qed.

Lemma storeOk_lookup vr h c : storeOk vr = true → vr !! h = Some c → commitOk vr c = true.
Proof.
  unfold storeOk. rewrite forallb_forall. intros H Hl.
  apply (H (h, c)). apply list_elem_of_In. by apply elem_of_map_to_list.
Qed.

(** In a well-formed store the parents of the target of a well-formed
    reference are well-formed and strictly lower. *)
Lemma refOk_parents vr r c ps :
  storeOk vr = true → refOk vr r = true →
  vr !! TargetHash r = Some c → parentsOf c = Some ps →
  Forall (λ p, refOk vr p = true ∧ Height p < Height r) ps.
Proof.
  intros Hs Hr Hc Hps.
  destruct (refOk_inv _ _ Hr) as (c' & ps' & Hc' & _ & Hh).
  rewrite Hc in Hc'. injection Hc' as <-.
  destruct (commitOk_inv _ _ (storeOk_lookup _ _ _ Hs Hc)) as (ps'' & Hps'' & Hall).
  rewrite Hps in Hps''. injection Hps'' as <-.
  apply Forall_forall. intros p Hp. split.
  - by eapply Forall_forall in Hall.
  - rewrite Hh. by eapply parent_height.
Qed.

Lemma TargetValue_Ok r vr c : TargetValue r vr = Ok c ↔ vr !! TargetHash r = Some c.
Proof. unfold TargetValue. destruct (vr !! TargetHash r); split; congruence. Qed.

(** ** The frontier of [CommitDescendsFrom] *)

Lemma frontierOk_inv vr F :
  frontierOk vr F = true ↔ Forall (λ m, ∃ r, m = MRef r ∧ refOk vr r = true) F.
Proof.
  unfold frontierOk. rewrite forallb_forall, Forall_forall. split; intros H m Hm.
  - apply list_elem_of_In, H in Hm. destruct m; simpl in Hm; [eauto|done].
  - apply list_elem_of_In, H in Hm as (r & -> & Hr). done.
Qed.

Lemma frontierOk_fmap vr ps :
  Forall (λ p, refOk vr p = true) ps → frontierOk vr (MRef <$> ps) = true.
Proof.
  intros H. apply frontierOk_inv, Forall_fmap. eapply Forall_impl; [done|].
  intros p Hp. simpl. eauto.
Qed.

(** The inner loop of [getAncestors] keeps the parents that are not lower
    than [minHeight]. *)
Lemma getAncestors_inner minHeight ps : ∀ next,
  ∃ next', forEach (λ next v, r ⇐ asRef v ;;
                      Ok (if minHeight <=? Height r then next ++ [v] else next))
             next (MRef <$> ps) = Ok next' ∧
    ∀ m, m ∈ next' ↔ m ∈ next ∨ ∃ p, p ∈ ps ∧ m = MRef p ∧ minHeight ≤ Height p.
Proof.
  induction ps as [|p ps IH]; intros next; cbn [fmap list_fmap forEach].
  - exists next. split; [done|]. intros m. split; [tauto|].
    intros [?|(p & Hp & _)]; [done|]. by apply elem_of_nil in Hp.
  - cbn [asRef bindRes].
    destruct (IH (if minHeight <=? Height p then next ++ [MRef p] else next))
      as (next' & Hn & Hm).
    exists next'. split; [done|]. intros m. rewrite Hm. clear Hm Hn.
    destruct (minHeight <=? Height p) eqn:E.
    + apply N.leb_le in E. rewrite elem_of_app, list_elem_of_singleton. split.
      * intros [[?| ->]|(q & Hq & -> & Hh)]; [tauto| |].
        -- right. exists p. split; [apply list_elem_of_here|done].
        -- right. exists q. split; [by apply list_elem_of_further|done].
      * intros [?|(q & Hq & -> & Hh)]; [tauto|].
        apply elem_of_cons in Hq as [-> |Hq]; [tauto|]. right. eauto.
    + apply N.leb_gt in E. split.
      * intros [?|(q & Hq & -> & Hh)]; [tauto|].
        right. exists q. split; [by apply list_elem_of_further|done].
      * intros [?|(q & Hq & -> & Hh)]; [tauto|].
        apply elem_of_cons in Hq as [-> |Hq]; [lia|]. right. eauto.
Qed.

Lemma parentsOfTaller_cons vr x F h m :
  parentsOfTaller vr (x :: F) h m ↔
  parentsOfTaller vr [x] h m ∨ parentsOfTaller vr F h m.
Proof.
  unfold parentsOfTaller. split.
  - intros (r & c & ps & p & Hr & H). apply elem_of_cons in Hr as [Hr|Hr].
    + left. exists r, c, ps, p. split; [rewrite Hr; apply list_elem_of_here | done].
    + right. exists r, c, ps, p. done.
  - intros [(r & c & ps & p & Hr & H)|(r & c & ps & p & Hr & H)]; exists r, c, ps, p.
    + apply list_elem_of_singleton in Hr. split; [rewrite Hr; apply list_elem_of_here|done].
    + split; [by apply list_elem_of_further | done].
Qed.

(** The frontier that [getAncestors] computes, on a well-formed frontier. *)
Lemma getAncestors_loop vr minHeight F :
  storeOk vr = true → frontierOk vr F = true →
  ∀ acc, ∃ new,
    forEach (λ ancestors v,
      r ⇐ asRef v ;;
      c ⇐ TargetValue r vr ;;
      if minHeight <? Height r then
        pv ⇐ Get c ParentsField ;;
        ps ⇐ asSet pv ;;
        next ⇐ forEach (λ next v,
                  r ⇐ asRef v ;;
                  Ok (if minHeight <=? Height r then next ++ [v] else next))
                [] ps ;;
        Ok (Insert ancestors next)
      else Ok ancestors) acc F = Ok new ∧
    ∀ m, m ∈ new ↔
      m ∈ acc ∨ (parentsOfTaller vr F minHeight m ∧ minHeight ≤ heightOfMember m).
Proof.
  intros Hs HF. apply frontierOk_inv in HF.
  induction HF as [|x F (r & -> & Hr) HF IH]; intros acc; cbn [forEach].
  - exists acc. split; [done|]. intros m. split; [tauto|].
    intros [?|[(r & c & ps & p & Hr & _) _]]; [done|]. by apply elem_of_nil in Hr.
  - destruct (refOk_inv _ _ Hr) as (c & ps & Hc & Hps & Hh).
    cbn [asRef bindRes]. rewrite (proj2 (TargetValue_Ok r vr c) Hc). cbn [bindRes].
    assert (Hthis : ∀ m, parentsOfTaller vr [MRef r] minHeight m ↔
                         minHeight < Height r ∧ ∃ p, p ∈ ps ∧ m = MRef p).
    { intros m. unfold parentsOfTaller. split.
      - intros (r' & c' & ps' & p & Hr' & Hlt & Hc' & Hps' & Hp & ->).
        apply list_elem_of_singleton in Hr'. injection Hr' as ->.
        rewrite Hc in Hc'. injection Hc' as <-. rewrite Hps in Hps'. injection Hps' as <-.
        eauto.
      - intros (Hlt & p & Hp & ->). exists r, c, ps, p.
        split; [apply list_elem_of_here | done]. }
    destruct (minHeight <? Height r) eqn:E.
    + apply N.ltb_lt in E.
      rewrite (proj1 (parentsOf_Some c ps) Hps). cbn [bindRes asSet].
      destruct (getAncestors_inner minHeight ps []) as (next & -> & Hnext).
      cbn [bindRes].
      destruct (IH (Insert acc next)) as (new & Hnew & Hm).
      exists new. split; [done|]. intros m.
      rewrite Hm, Insert_elem, Hnext, parentsOfTaller_cons, Hthis. clear -E.
      split.
      * intros [[?|[?%elem_of_nil|(p & Hp & -> & Hh)]]|[H1 H2]].
        -- tauto.
        -- done.
        -- right. split; [|done]. left. eauto.
        -- tauto.
      * intros [?|[[[_ (p & Hp & ->)]|H1] H2]].
        -- tauto.
        -- left. right. right. eauto.
        -- tauto.
    + apply N.ltb_ge in E.
      destruct (IH acc) as (new & Hnew & Hm).
      exists new. split; [done|]. intros m.
      rewrite Hm, parentsOfTaller_cons, Hthis. clear -E. split; [tauto|].
      intros [?|[[[Hlt _]|H1] H2]]; [tauto|lia|tauto].
Qed.

Lemma getAncestors_spec vr minHeight F :
  storeOk vr = true → frontierOk vr F = true →
  ∃ new, getAncestors F minHeight vr = Ok new ∧
    ∀ m, m ∈ new ↔ parentsOfTaller vr F minHeight m ∧ minHeight ≤ heightOfMember m.
Proof.
  intros Hs HF. destruct (getAncestors_loop vr minHeight F Hs HF NewSet) as (new & Hn & Hm).
  exists new. split; [done|]. intros m. rewrite Hm. unfold NewSet. rewrite elem_of_nil. tauto.
Qed.

(** The members of the new frontier are well-formed references, each lower
    than some member of the old one. *)
Lemma parentsOfTaller_ok vr F h m :
  storeOk vr = true → frontierOk vr F = true → parentsOfTaller vr F h m →
  ∃ p r, m = MRef p ∧ refOk vr p = true ∧ MRef r ∈ F ∧ Height p < Height r.
Proof.
  intros Hs HF (r & c & ps & p & Hr & Hlt & Hc & Hps & Hp & ->).
  apply frontierOk_inv in HF. eapply Forall_forall in HF; [|done].
  destruct HF as (r' & [= <-] & Hok).
  pose proof (refOk_parents vr r c ps Hs Hok Hc Hps) as Hall.
  eapply Forall_forall in Hall as [? ?]; [|done]. exists p, r. done.
Qed.

(** One iteration of the loop of [CommitDescendsFrom] that neither finds the
    ancestor nor an empty frontier. *)
Lemma descendsLoop_step (fuel : nat) (frontier : list Member)
    (ancestor : Ref) (vr : gmap Hash Struct) :
  storeOk vr = true → frontierOk vr frontier = true →
  Has frontier (MRef ancestor) = false → Empty frontier = false →
  ∃ new, getAncestors frontier (Height ancestor) vr = Ok new ∧
    descendsLoop (S fuel) frontier ancestor vr = descendsLoop fuel new ancestor vr ∧
    ∀ m, m ∈ new ↔
      parentsOfTaller vr frontier (Height ancestor) m ∧
      Height ancestor ≤ heightOfMember m.
Proof.
  intros Hs HF Hhas Hempty.
  destruct (getAncestors_spec vr (Height ancestor) frontier Hs HF) as (new & Hn & Hm).
  exists new. split; [done|]. split; [|done].
  cbn [descendsLoop]. rewrite Hhas, Hempty, Hn. reflexivity.
Qed.

(** Claim C4, amended.  In an iteration of [CommitDescendsFrom] in which
    the frontier neither holds the ancestor reference nor is empty, the new
    frontier is the set of those parents, of the commits of the frontier
    whose reference is strictly taller than the ancestor reference, whose
    own height is at least the height of the ancestor reference; the loop
    goes on with it. *)
Theorem descendsLoop_next_frontier (fuel : nat) (frontier : list Member)
    (ancestor : Ref) (vr : gmap Hash Struct) :
  storeOk vr = true → frontierOk vr frontier = true →
  Has frontier (MRef ancestor) = false → Empty frontier = false →
  ∃ new, getAncestors frontier (Height ancestor) vr = Ok new ∧
    descendsLoop (S fuel) frontier ancestor vr = descendsLoop fuel new ancestor vr ∧
    ∀ m, m ∈ new ↔
      parentsOfTaller vr frontier (Height ancestor) m ∧
      Height ancestor ≤ heightOfMember m.
Proof. apply descendsLoop_step. Qed.

(** The amended claim C4 on the frontier [{sX}] of the sample store. *)
Lemma descendsLoop_next_frontier_witness :
  ∃ new, getAncestors [MRef (sampleRef sX)] (Height (sampleRef sV)) sampleStore = Ok new ∧
    descendsLoop 3 [MRef (sampleRef sX)] (sampleRef sV) sampleStore =
      descendsLoop 2 new (sampleRef sV) sampleStore ∧
    ∀ m, m ∈ new ↔
      parentsOfTaller sampleStore [MRef (sampleRef sX)] (Height (sampleRef sV)) m ∧
      Height (sampleRef sV) ≤ heightOfMember m.
Proof.
  apply (descendsLoop_next_frontier 2 [MRef (sampleRef sX)] (sampleRef sV) sampleStore);
    reflexivity.
Defined.

(** Claim C4 as stated fails: searching from [sW] for the reference to
    [sV], of height 2, the frontier after [{sX}] is [{sY}]; the parent
    [sR1] of [sX], of height 1, is left out. *)
Lemma descendsLoop_all_parents_fails :
  Get sW ParentsField = Ok (SetValue [MRef (sampleRef sX)]) ∧
  Has [MRef (sampleRef sX)] (MRef (sampleRef sV)) = false ∧
  Empty [MRef (sampleRef sX)] = false ∧
  ∃ new, getAncestors [MRef (sampleRef sX)] (Height (sampleRef sV)) sampleStore = Ok new ∧
    ¬ (∀ m, m ∈ new ↔
         parentsOfTaller sampleStore [MRef (sampleRef sX)] (Height (sampleRef sV)) m).
Proof.
  split; [reflexivity|]. split; [reflexivity|]. split; [reflexivity|].
  eexists. split; [reflexivity|]. intros H.
  specialize (H (MRef (sampleRef sR1))) as [_ H].
  assert (Hin : MRef (sampleRef sR1) ∈ [MRef (sampleRef sY)]).
  { apply H. exists (sampleRef sX), sX, [sampleRef sY; sampleRef sR1], (sampleRef sR1).
    split; [apply list_elem_of_here|]. split; [by vm_compute|].
    split; [reflexivity|]. split; [reflexivity|].
    split; [apply list_elem_of_further, list_elem_of_here | reflexivity]. }
  apply list_elem_of_singleton in Hin. discriminate Hin.
Qed.

Lemma no_members {A} (l : list A) : (∀ x, x ∉ l) → l = [].
Proof. destruct l as [|x l]; [done|]. intros H. destruct (H x). apply list_elem_of_here. Qed.

(** Heights fall along parent edges. *)
Lemma descends_height vr n x r :
  storeOk vr = true → refOk vr x = true → descends vr n x r →
  refOk vr r = true ∧ Height r ≤ Height x ∧ (n ≠ 0%nat → Height r < Height x).
Proof.
  intros Hs Hx Hd. induction Hd as [a|n a c ps p r Hc Hps Hp Hd IH].
  - split; [done|]. split; [lia|done].
  - pose proof (refOk_parents vr a c ps Hs Hx Hc Hps) as Hall.
    eapply Forall_forall in Hall as [Hpok Hlt]; [|done].
    destruct (IH Hpok) as (Hr & Hle & _). split; [done|]. split; [lia|]. intros _. lia.
Qed.

Lemma descendsLoop_reaches vr r n : ∀ F x fuel,
  storeOk vr = true → frontierOk vr F = true →
  MRef x ∈ F → descends vr n x r → (n ≤ fuel)%nat →
  descendsLoop fuel F r vr = Ok true.
Proof.
  induction n as [|n IH]; intros F x fuel Hs HF Hx Hd Hfuel.
  - inversion Hd; subst. apply Has_elem in Hx.
    destruct fuel; cbn [descendsLoop]; by rewrite Hx.
  - destruct (Has F (MRef r)) eqn:Hhas.
    { destruct fuel; cbn [descendsLoop]; by rewrite Hhas. }
    destruct fuel as [|fuel]; [lia|].
    assert (Hne : Empty F = false).
    { apply Empty_false. intros ->. by apply elem_of_nil in Hx. }
    destruct (descendsLoop_step fuel F r vr Hs HF Hhas Hne) as (new & _ & -> & Hm).
    assert (Hxok : refOk vr x = true).
    { apply frontierOk_inv in HF. eapply Forall_forall in HF; [|done].
      by destruct HF as (? & [= <-] & ?). }
    pose proof (descends_height vr _ x r Hs Hxok Hd) as (_ & _ & Hlt).
    specialize (Hlt ltac:(done)).
    inversion Hd as [|? ? c ps p ? Hc Hps Hp Hd']; subst.
    pose proof (refOk_parents vr x c ps Hs Hxok Hc Hps) as Hall.
    eapply Forall_forall in Hall as [Hpok _]; [|done].
    pose proof (descends_height vr _ p r Hs Hpok Hd') as (_ & Hle & _).
    assert (Hin : MRef p ∈ new).
    { apply Hm. split; [|done]. exists x, c, ps, p. done. }
    apply (IH new p fuel); try done; [|lia].
    apply frontierOk_inv, Forall_forall. intros m Hmem.
    apply Hm in Hmem as [Hmem _].
    destruct (parentsOfTaller_ok vr F _ m Hs HF Hmem) as (q & _ & -> & Hq & _). eauto.
Qed.

Lemma descendsLoop_terminates vr r k : ∀ F fuel,
  storeOk vr = true → frontierOk vr F = true →
  Forall (λ m, heightOfMember m ≤ N.of_nat k) F → (k ≤ fuel)%nat →
  ∃ b, descendsLoop fuel F r vr = Ok b.
Proof.
  induction k as [|k IH]; intros F fuel Hs HF Hb Hfuel.
  - destruct F as [|m F].
    + exists false. destruct fuel; reflexivity.
    + exfalso. apply frontierOk_inv in HF.
      inversion HF as [|? ? (x & -> & Hx) _]; subst. inversion Hb as [|? ? Hh _]; subst.
      apply refOk_pos in Hx. simpl in Hh. lia.
  - destruct (Has F (MRef r)) eqn:Hhas.
    { exists true. destruct fuel; cbn [descendsLoop]; by rewrite Hhas. }
    destruct (Empty F) eqn:Hempty.
    { exists false. destruct fuel; cbn [descendsLoop]; by rewrite Hhas, Hempty. }
    destruct fuel as [|fuel]; [lia|].
    destruct (descendsLoop_step fuel F r vr Hs HF Hhas Hempty) as (new & _ & -> & Hm).
    apply (IH new fuel); try done; [| |lia].
    + apply frontierOk_inv, Forall_forall. intros m Hmem.
      apply Hm in Hmem as [Hmem _].
      destruct (parentsOfTaller_ok vr F _ m Hs HF Hmem) as (q & _ & -> & Hq & _). eauto.
    + apply Forall_forall. intros m Hmem. apply Hm in Hmem as [Hmem _].
      destruct (parentsOfTaller_ok vr F _ m Hs HF Hmem) as (q & x & -> & _ & Hx & Hlt).
      eapply Forall_forall in Hb; [|done]. simpl in *. lia.
Qed.

(** Claim C3.  In a well-formed store, for a commit [c] whose parents
    satisfy the height invariant: [CommitDescendsFrom] on [c] and the
    reference to [c] itself returns false when that reference is not among
    the parents of [c], and it returns true on every reference that is a
    parent of [c] or is reached from one through parent edges. *)
Theorem CommitDescendsFrom_ancestors `{Hasher} (c : Struct) (vr : gmap Hash Struct) :
  storeOk vr = true → commitOk vr c = true →
  (∀ ps, parentsOf c = Some ps → NewRef c ∉ ps →
         ∀ fuel, CommitDescendsFrom (S fuel) c (NewRef c) vr = Ok false) ∧
  (∀ r, ancestorOf vr c r →
        ∃ n, ∀ fuel, (n ≤ fuel)%nat → CommitDescendsFrom fuel c r vr = Ok true).
Proof.
  intros Hs Hc. destruct (commitOk_inv _ _ Hc) as (ps & Hps & Hall).
  pose proof (frontierOk_fmap vr ps Hall) as HF.
  unfold CommitDescendsFrom. rewrite (proj1 (parentsOf_Some c ps) Hps). cbn [bindRes asSet].
  split.
  - intros ps' Hps' Hself fuel. rewrite Hps in Hps'. injection Hps' as <-.
    assert (Hhas : Has (MRef <$> ps) (MRef (NewRef c)) = false).
    { apply Has_false. intros (p & [= <-] & Hp)%list_elem_of_fmap. done. }
    destruct (Empty (MRef <$> ps)) eqn:Hempty.
    { cbn [descendsLoop]. by rewrite Hhas, Hempty. }
    destruct (descendsLoop_step fuel _ (NewRef c) vr Hs HF Hhas Hempty)
      as (new & _ & -> & Hm).
    assert (new = []) as ->.
    { apply no_members. intros m Hmem. apply Hm in Hmem as [Hmem _].
      destruct Hmem as (r & c' & ps' & p & Hr & Hlt & _).
      apply list_elem_of_fmap in Hr as (q & [= <-] & Hq).
      pose proof (parent_height c ps r Hps Hq). simpl in Hlt. lia. }
    destruct fuel; reflexivity.
  - intros r (ps' & p & n & Hps' & Hp & Hd). rewrite Hps in Hps'. injection Hps' as <-.
    exists n. intros fuel Hfuel.
    apply (descendsLoop_reaches vr r n _ p); try done.
    apply list_elem_of_fmap. eauto.
Qed.

(** ** The queues of [FindCommonAncestor] *)

#[local] Instance taller_trans : Transitive taller.
Proof. intros a b c. unfold taller. lia. Qed.

#[local] Instance taller_total : Total taller.
Proof. intros a b. unfold taller. lia. Qed.

Lemma Sort_perm q : Sort q ≡ₚ q.
Proof. apply merge_sort_Permutation. Qed.

Lemma Sort_sorted q : StronglySorted taller (Sort q).
Proof. apply StronglySorted_merge_sort; apply _. Qed.

Lemma Sort_elem q x : x ∈ Sort q ↔ x ∈ q.
Proof. by rewrite Sort_perm. Qed.

(** [PopRefsOfHeight] splits off the leading references of the given height. *)
Lemma PopRefsOfHeight_split q h refs rest :
  PopRefsOfHeight q h = (refs, rest) →
  q = refs ++ rest ∧ Forall (λ r, Height r = h) refs ∧
  match rest with [] => True | r :: _ => Height r ≠ h end.
Proof.
  revert refs rest. induction q as [|r q IH]; intros refs rest; cbn [PopRefsOfHeight].
  - intros [= <- <-]. done.
  - destruct (Height r =? h) eqn:E.
    + apply N.eqb_eq in E. destruct (PopRefsOfHeight q h) as [refs' rest'].
      intros [= <- <-]. destruct (IH _ _ eq_refl) as (-> & Hall & Hrest).
      split; [done|]. split; [by constructor | done].
    + apply N.eqb_neq in E. intros [= <- <-]. done.
Qed.

Lemma PopRefsOfHeight_max q refs rest :
  StronglySorted taller q → q ≠ [] →
  PopRefsOfHeight q (MaxHeight q) = (refs, rest) →
  q = refs ++ rest ∧ refs ≠ [] ∧ Forall (λ r, Height r = MaxHeight q) refs ∧
  Forall (λ r, Height r < MaxHeight q) rest ∧ StronglySorted taller rest.
Proof.
  intros Hs Hne Hpop. destruct q as [|r0 q]; [done|]. cbn [MaxHeight] in *.
  destruct (PopRefsOfHeight_split _ _ _ _ Hpop) as (Hq & Hall & Hrest).
  split; [done|].
  assert (Hrefs : refs ≠ []).
  { intros ->. simpl in Hq. subst rest. done. }
  split; [done|]. split; [done|].
  rewrite Hq in Hs. apply StronglySorted_app in Hs as (H12 & Hs1 & Hs2).
  split; [|done].
  destruct rest as [|r1 rest]; [constructor|].
  assert (Hr1 : Height r1 < Height r0).
  { destruct refs as [|x refs]; [done|]. injection Hq as <- _.
    specialize (H12 r0 r1 (list_elem_of_here _ _) (list_elem_of_here _ _)).
    unfold taller in H12. lia. }
  apply StronglySorted_inv in Hs2 as [_ Hs2].
  constructor; [done|]. eapply Forall_impl; [exact Hs2|]. unfold taller. intros; lia.
Qed.

Lemma pushAll q ps :
  forEach (λ q v, r ⇐ asRef v ;; Ok (PushBack q r)) q (MRef <$> ps) = Ok (q ++ ps).
Proof.
  revert q. induction ps as [|p ps IH]; intros q; cbn [fmap list_fmap forEach].
  - by rewrite app_nil_r.
  - cbn [asRef bindRes]. unfold PushBack. fold (MRef <$> ps).
    rewrite IH. by rewrite <- app_assoc.
Qed.

Lemma parentsToQueue_spec vr refs : ∀ q,
  Forall (λ r, refOk vr r = true) refs →
  ∃ q', parentsToQueue refs q vr = Ok (Sort q') ∧
        ∀ x, x ∈ q' ↔ x ∈ q ∨ isParentOf vr refs x.
Proof.
  unfold parentsToQueue.
  induction refs as [|r refs IH]; intros q Hall; cbn [forEach bindRes].
  - exists q. split; [done|]. intros x. split; [tauto|].
    intros [?|(r & c & ps & Hr & _)]; [done|]. by apply elem_of_nil in Hr.
  - inversion Hall as [|? ? Hr Hrefs]; subst.
    destruct (refOk_inv _ _ Hr) as (c & ps & Hc & Hps & _).
    rewrite (proj2 (TargetValue_Ok r vr c) Hc). cbn [bindRes].
    rewrite (proj1 (parentsOf_Some c ps) Hps). cbn [bindRes asSet].
    rewrite pushAll.
    destruct (IH (q ++ ps) Hrefs) as (q' & Hq' & Hm).
    exists q'. split; [done|]. intros x. rewrite Hm, elem_of_app. split.
    + intros [[?|Hx]|(r' & c' & ps' & Hr' & H)]; [tauto| |].
      * right. exists r, c, ps. split; [apply list_elem_of_here|done].
      * right. exists r', c', ps'. split; [by apply list_elem_of_further|done].
    + intros [?|(r' & c' & ps' & Hr' & Hc' & Hps' & Hx)]; [tauto|].
      apply elem_of_cons in Hr' as [->|Hr'].
      * rewrite Hc in Hc'. injection Hc' as <-. rewrite Hps in Hps'. injection Hps' as <-.
        tauto.
      * right. exists r', c', ps'. done.
Qed.

Lemma isParentOf_ok vr refs p h :
  storeOk vr = true → Forall (λ r, refOk vr r = true) refs →
  Forall (λ r, Height r = h) refs → isParentOf vr refs p →
  refOk vr p = true ∧ Height p < h.
Proof.
  intros Hs Hall Hh (r & c & ps & Hr & Hc & Hps & Hp).
  eapply Forall_forall in Hall; [|done]. eapply Forall_forall in Hh; [|done].
  pose proof (refOk_parents vr r c ps Hs Hall Hc Hps) as H.
  eapply Forall_forall in H as [? ?]; [|done]. split; [done|lia].
Qed.

(** The queue after one expansion of its tallest references. *)
Lemma expand_queue vr q refs rest :
  storeOk vr = true → Forall (λ r, refOk vr r = true) q → StronglySorted taller q →
  q ≠ [] → PopRefsOfHeight q (MaxHeight q) = (refs, rest) →
  ∃ q', parentsToQueue refs rest vr = Ok q' ∧
        Forall (λ r, refOk vr r = true) q' ∧ StronglySorted taller q' ∧
        MaxHeight q' < MaxHeight q ∧
        (∀ x, x ∈ q' ↔ x ∈ rest ∨ isParentOf vr refs x).
Proof.
  intros Hs Hok Hsorted Hne Hpop.
  destruct (PopRefsOfHeight_max q refs rest Hsorted Hne Hpop)
    as (Hq & Hrefs & Hh & Hlow & Hsrest).
  rewrite Hq in Hok. apply Forall_app in Hok as [Hok1 Hok2].
  destruct (parentsToQueue_spec vr refs rest Hok1) as (q' & Hq' & Hm).
  exists (Sort q'). split; [done|].
  assert (Hall : Forall (λ r, refOk vr r = true ∧ Height r < MaxHeight q) (Sort q')).
  { apply Forall_forall. intros x Hx. apply Sort_elem, Hm in Hx as [Hx|Hx].
    - split; [by eapply Forall_forall in Hok2 | by eapply Forall_forall in Hlow].
    - apply (isParentOf_ok vr refs x (MaxHeight q) Hs Hok1 Hh Hx). }
  split; [eapply Forall_impl; [exact Hall|]; by intros ? [? ?]|].
  split; [apply Sort_sorted|]. split.
  - destruct (Sort q') as [|x s] eqn:E.
    + simpl. destruct refs as [|r1 refs']; [done|].
      apply Forall_cons in Hok1 as [Hr1 _]. apply Forall_cons in Hh as [Hh1 _].
      pose proof (refOk_pos _ _ Hr1). lia.
    + inversion Hall as [|? ? [_ Hx] _]; subst. done.
  - intros x. by rewrite Sort_elem.
Qed.

Lemma toRefSet_lookup s h r :
  toRefSet s !! h = Some r → r ∈ s ∧ TargetHash r = h.
Proof.
  unfold toRefSet.
  assert (H : ∀ (m : gmap Hash Ref),
    (∀ h r, m !! h = Some r → r ∈ s ∧ TargetHash r = h) →
    ∀ l, (∀ x, x ∈ l → x ∈ s) →
    ∀ h r, foldl (λ out r, <[TargetHash r := r]> out) m l !! h = Some r →
           r ∈ s ∧ TargetHash r = h).
  { intros m Hm l. revert m Hm. induction l as [|x l IH]; intros m Hm Hl h' r'; cbn [foldl].
    - apply Hm.
    - apply IH.
      + intros h'' r''. rewrite lookup_insert. case_decide as E.
        * intros [= <-]. split; [apply Hl, list_elem_of_here | done].
        * apply Hm.
      + intros y Hy. by apply Hl, list_elem_of_further. }
  apply (H ∅); [|done]. intros h' r'. by rewrite lookup_empty.
Qed.

Lemma findCommonRef_Some range a b r :
  rangeOk range → findCommonRef range a b = Some r →
  toRefSet a !! TargetHash r = Some r ∧ is_Some (toRefSet b !! TargetHash r).
Proof.
  intros Hrange. unfold findCommonRef.
  destruct (head _) as [[s r']|] eqn:E; [|done]. intros [= <-].
  apply head_Some_elem_of, list_elem_of_filter in E as [Hb Hin]. simpl in Hb.
  rewrite (Hrange _) in Hin. apply elem_of_map_to_list in Hin.
  destruct (toRefSet_lookup _ _ _ Hin) as [_ <-]. done.
Qed.

Lemma findCommonRef_None range a b :
  rangeOk range →
  findCommonRef range a b = None ↔
  ∀ s, is_Some (toRefSet a !! s) → toRefSet b !! s = None.
Proof.
  intros Hrange. unfold findCommonRef. rewrite fmap_None. split.
  - intros E s [r Hr].
    destruct (toRefSet b !! s) eqn:Hb; [|done]. exfalso.
    assert (Hin : (s, r) ∈ filter (λ sr, is_Some (toRefSet b !! sr.1))
                                  (range (map_to_list (toRefSet a)))).
    { apply list_elem_of_filter. split; [simpl; by rewrite Hb|].
      rewrite (Hrange _). by apply elem_of_map_to_list. }
    destruct (filter _ _); [by apply elem_of_nil in Hin | done].
  - intros H. destruct (filter _ _) as [|[s r] l] eqn:E; [done|]. exfalso.
    assert (Hin : (s, r) ∈ filter (λ sr, is_Some (toRefSet b !! sr.1))
                                  (range (map_to_list (toRefSet a)))).
    { rewrite E. apply list_elem_of_here. }
    apply list_elem_of_filter in Hin as [[x Hb] Hin]. simpl in Hb.
    rewrite (Hrange _) in Hin. apply elem_of_map_to_list in Hin.
    rewrite H in Hb; [done|eauto].
Qed.

Lemma findCommonRef_swap_None range1 range2 a b :
  rangeOk range1 → rangeOk range2 →
  findCommonRef range1 a b = None → findCommonRef range2 b a = None.
Proof.
  intros H1 H2 E. apply findCommonRef_None; [done|]. intros s [rb Hb].
  destruct (toRefSet a !! s) eqn:Ha; [|done].
  rewrite (proj1 (findCommonRef_None range1 a b H1) E s) in Hb; [done|eauto].
Qed.



Lemma queueOk_singleton vr r : refOk vr r = true → queueOk vr [r].
Proof. intros Hr. split; [by constructor | repeat constructor]. Qed.

Lemma queueOk_height vr q : queueOk vr q → q ≠ [] → 1 ≤ MaxHeight q.
Proof.
  intros [Hok _] Hne. destruct q as [|r q]; [done|]. simpl.
  apply Forall_cons in Hok as [Hr _]. by apply refOk_pos in Hr.
Qed.

Lemma isParentOf_mono vr refs q x :
  (∀ r, r ∈ refs → r ∈ q) → isParentOf vr refs x → isParentOf vr q x.
Proof. intros Hsub (r & c & ps & Hr & H). exists r, c, ps. split; [by apply Hsub|done]. Qed.

(** One side of an iteration: the tallest references are replaced by their
    parents. *)
Lemma expand_side vr q refs rest :
  storeOk vr = true → queueOk vr q → q ≠ [] →
  PopRefsOfHeight q (MaxHeight q) = (refs, rest) →
  ∃ q', parentsToQueue refs rest vr = Ok q' ∧ queueOk vr q' ∧
        MaxHeight q' < MaxHeight q ∧
        (∀ x, x ∈ q' → x ∈ q ∨ isParentOf vr q x) ∧
        (∀ r, r ∈ refs → r ∈ q ∧ Height r = MaxHeight q).
Proof.
  intros Hs [Hok Hsorted] Hne Hpop.
  destruct (expand_queue vr q refs rest Hs Hok Hsorted Hne Hpop)
    as (q' & Hq' & Hok' & Hs' & Hlt & Hm).
  destruct (PopRefsOfHeight_max q refs rest Hsorted Hne Hpop) as (Hq & _ & Hh & _).
  assert (Hsub : ∀ r, r ∈ refs → r ∈ q).
  { intros r Hr. rewrite Hq. apply elem_of_app. by left. }
  exists q'. split; [done|]. split; [done|]. split; [done|]. split.
  - intros x [Hx|Hx]%Hm.
    + left. rewrite Hq. apply elem_of_app. by right.
    + right. by eapply isParentOf_mono.
  - intros r Hr. split; [by apply Hsub|]. by eapply Forall_forall in Hh.
Qed.

(** One iteration on two non-empty well-formed queues: a shared reference is
    found, or both queues stay well-formed and the sum of their greatest
    heights falls. *)
Lemma commonAncestorStep_inv range vr q1 q2 :
  storeOk vr = true → rangeOk range → queueOk vr q1 → queueOk vr q2 →
  q1 ≠ [] → q2 ≠ [] →
  (∃ a r1 r2, commonAncestorStep range q1 q2 vr = Ok (inl a) ∧
      r1 ∈ q1 ∧ r2 ∈ q2 ∧ TargetHash r1 = TargetHash r2 ∧
      vr !! TargetHash r1 = Some a ∧
      1 + maxChunkHeight a = MaxHeight q1 ∧ MaxHeight q1 = MaxHeight q2) ∨
  (∃ q1' q2', commonAncestorStep range q1 q2 vr = Ok (inr (q1', q2')) ∧
      queueOk vr q1' ∧ queueOk vr q2' ∧
      MaxHeight q1' + MaxHeight q2' < MaxHeight q1 + MaxHeight q2 ∧
      (∀ x, x ∈ q1' → x ∈ q1 ∨ isParentOf vr q1 x) ∧
      (∀ x, x ∈ q2' → x ∈ q2 ∨ isParentOf vr q2 x)).
Proof.
  intros Hs Hrange H1 H2 Hne1 Hne2. unfold commonAncestorStep.
  destruct (PopRefsOfHeight q1 (MaxHeight q1)) as [p1 rest1] eqn:Hp1.
  destruct (PopRefsOfHeight q2 (MaxHeight q2)) as [p2 rest2] eqn:Hp2.
  destruct (expand_side vr q1 p1 rest1 Hs H1 Hne1 Hp1) as (q1' & Hq1' & Hok1 & Hlt1 & Hm1 & Hsub1).
  destruct (expand_side vr q2 p2 rest2 Hs H2 Hne2 Hp2) as (q2' & Hq2' & Hok2 & Hlt2 & Hm2 & Hsub2).
  destruct (MaxHeight q1 =? MaxHeight q2) eqn:E.
  - destruct (findCommonRef range p1 p2) as [common|] eqn:Hc.
    + left. destruct (findCommonRef_Some range p1 p2 common Hrange Hc) as [Ha [rb Hb]].
      apply toRefSet_lookup in Ha as [Ha _]. apply toRefSet_lookup in Hb as [Hb Hhb].
      destruct (Hsub1 _ Ha) as [Hin1 Hh1]. destruct (Hsub2 _ Hb) as [Hin2 _].
      destruct H1 as [Hall1 _]. eapply Forall_forall in Hall1; [|exact Hin1].
      destruct (refOk_inv _ _ Hall1) as (a & ps & Hva & _ & Hha).
      exists a, common, rb. rewrite (proj2 (TargetValue_Ok common vr a) Hva).
      apply N.eqb_eq in E. rewrite <- Hh1, Hha in *. done.
    + right. exists q1', q2'. rewrite Hq1', Hq2'. cbn [bindRes].
      split; [done|]. split; [done|]. split; [done|]. split; [lia|]. done.
  - destruct (MaxHeight q2 <? MaxHeight q1) eqn:E2.
    + right. exists q1', q2. rewrite Hq1'. cbn [bindRes].
      split; [done|]. split; [done|]. split; [done|]. split; [lia|]. split; [done|]. tauto.
    + right. exists q1, q2'. rewrite Hq2'. cbn [bindRes].
      split; [done|]. split; [done|]. split; [done|]. split; [lia|]. split; [tauto|]. done.
Qed.

Lemma commonAncestorLoop_empty range fuel q1 q2 vr :
  q1 = [] ∨ q2 = [] → commonAncestorLoop range fuel q1 q2 vr = Ok None.
Proof.
  intros [-> | ->]; destruct fuel; cbn [commonAncestorLoop]; try done;
    destruct (qEmpty q1); reflexivity.
Qed.

Lemma commonAncestorLoop_unfold range fuel q1 q2 vr :
  q1 ≠ [] → q2 ≠ [] →
  commonAncestorLoop range (S fuel) q1 q2 vr =
    (s ⇐ commonAncestorStep range q1 q2 vr ;;
     match s with
     | inl a => Ok (Some a)
     | inr (q1', q2') => commonAncestorLoop range fuel q1' q2' vr
     end).
Proof.
  intros H1%qEmpty_false H2%qEmpty_false. cbn [commonAncestorLoop]. by rewrite H1, H2.
Qed.

(** The loop returns, within a number of iterations bounded by the heights at
    the front of the two queues. *)
Lemma commonAncestorLoop_terminates range vr k : ∀ q1 q2 fuel,
  storeOk vr = true → rangeOk range → queueOk vr q1 → queueOk vr q2 →
  (N.to_nat (MaxHeight q1 + MaxHeight q2) ≤ k)%nat → (k ≤ fuel)%nat →
  ∃ o, commonAncestorLoop range fuel q1 q2 vr = Ok o.
Proof.
  induction k as [|k IH]; intros q1 q2 fuel Hs Hrange H1 H2 Hk Hfuel.
  - exists None. apply commonAncestorLoop_empty.
    destruct q1 as [|r1 q1]; [by left|]. right.
    destruct q2 as [|r2 q2]; [done|]. exfalso.
    pose proof (queueOk_height vr _ H1 ltac:(done)). lia.
  - destruct q1 as [|r1 q1]; [exists None; apply commonAncestorLoop_empty; by left|].
    destruct q2 as [|r2 q2]; [exists None; apply commonAncestorLoop_empty; by right|].
    destruct fuel as [|fuel]; [lia|].
    rewrite commonAncestorLoop_unfold by done.
    destruct (commonAncestorStep_inv range vr (r1 :: q1) (r2 :: q2) Hs Hrange H1 H2)
      as [(a & x1 & x2 & -> & _)|(q1' & q2' & -> & H1' & H2' & Hlt & _)]; try done.
    + by exists (Some a).
    + cbn [bindRes]. apply IH; try done; lia.
Qed.

(** With frontiers that never share a target hash the loop finds nothing. *)
Lemma commonAncestorLoop_disjoint range vr (P1 P2 : Ref → Prop) k : ∀ q1 q2 fuel,
  storeOk vr = true → rangeOk range →
  (∀ x p, P1 x → isParentOf vr [x] p → P1 p) →
  (∀ x p, P2 x → isParentOf vr [x] p → P2 p) →
  (∀ x y, P1 x → P2 y → TargetHash x ≠ TargetHash y) →
  queueOk vr q1 → queueOk vr q2 → Forall P1 q1 → Forall P2 q2 →
  (N.to_nat (MaxHeight q1 + MaxHeight q2) ≤ k)%nat → (k ≤ fuel)%nat →
  commonAncestorLoop range fuel q1 q2 vr = Ok None.
Proof.
  intros q1 q2 fuel Hs Hrange Hc1 Hc2 Hdis. revert q1 q2 fuel.
  induction k as [|k IH]; intros q1 q2 fuel H1 H2 HP1 HP2 Hk Hfuel.
  - apply commonAncestorLoop_empty.
    destruct q1 as [|r1 q1]; [by left|]. right.
    destruct q2 as [|r2 q2]; [done|]. exfalso.
    pose proof (queueOk_height vr _ H1 ltac:(done)). lia.
  - destruct q1 as [|r1 q1]; [apply commonAncestorLoop_empty; by left|].
    destruct q2 as [|r2 q2]; [apply commonAncestorLoop_empty; by right|].
    destruct fuel as [|fuel]; [lia|].
    rewrite commonAncestorLoop_unfold by done.
    destruct (commonAncestorStep_inv range vr (r1 :: q1) (r2 :: q2) Hs Hrange H1 H2)
      as [(a & x1 & x2 & _ & Hx1 & Hx2 & Hh & _ & _ & _)|(q1' & q2' & -> & H1' & H2' & Hlt & Hm1 & Hm2)];
      try done.
    + exfalso. eapply Forall_forall in HP1; [|exact Hx1].
      eapply Forall_forall in HP2; [|exact Hx2]. by eapply Hdis.
    + cbn [bindRes]. apply IH; try done; try lia.
      * apply Forall_forall. intros x [Hx|(r & c & ps & Hr & H)]%Hm1.
        -- by eapply Forall_forall in HP1.
        -- eapply Forall_forall in HP1; [|exact Hr]. apply (Hc1 r x HP1).
           exists r, c, ps. split; [apply list_elem_of_here|done].
      * apply Forall_forall. intros x [Hx|(r & c & ps & Hr & H)]%Hm2.
        -- by eapply Forall_forall in HP2.
        -- eapply Forall_forall in HP2; [|exact Hr]. apply (Hc2 r x HP2).
           exists r, c, ps. split; [apply list_elem_of_here|done].
Qed.

Lemma descends_snoc vr n a x c ps p :
  descends vr n a x → vr !! TargetHash x = Some c → parentsOf c = Some ps → p ∈ ps →
  descends vr (S n) a p.
Proof.
  intros Hd Hc Hps Hp. induction Hd as [a|n a c' ps' p' r Hc' Hps' Hp' Hd IH].
  - eapply descends_step; [done..|constructor].
  - eapply descends_step; [done..|]. by apply IH.
Qed.

(** The no-ancestor outcome is the one of the runs in which a frontier
    empties. *)
Lemma commonAncestorLoop_None range vr fuel : ∀ q1 q2,
  commonAncestorLoop range fuel q1 q2 vr = Ok None ↔
  ∃ n q1' q2', (n ≤ fuel)%nat ∧ frontiersAfter range n q1 q2 vr = Some (q1', q2') ∧
               (q1' = [] ∨ q2' = []).
Proof.
  induction fuel as [|fuel IH]; intros q1 q2.
  - split.
    + intros H. exists 0%nat, q1, q2. split; [done|]. split; [done|].
      cbn [commonAncestorLoop] in H.
      destruct q1; [by left|]. destruct q2; [by right|]. done.
    + intros (n & q1' & q2' & Hn & Hf & He). assert (n = 0%nat) as -> by lia.
      injection Hf as <- <-. by apply commonAncestorLoop_empty.
  - destruct q1 as [|r1 q1].
    { split; [|intros _; apply commonAncestorLoop_empty; by left].
      intros _. exists 0%nat, [], q2. split; [lia|]. split; [done|]. by left. }
    destruct q2 as [|r2 q2].
    { split; [|intros _; apply commonAncestorLoop_empty; by right].
      intros _. exists 0%nat, (r1 :: q1), []. split; [lia|]. split; [done|]. by right. }
    rewrite commonAncestorLoop_unfold by done. split.
    + destruct (commonAncestorStep range (r1 :: q1) (r2 :: q2) vr) as [[a|[q1' q2']]| |] eqn:E;
        cbn [bindRes]; try done.
      intros (n & q1'' & q2'' & Hn & Hf & He)%IH.
      exists (S n), q1'', q2''. split; [lia|]. split; [|done].
      cbn [frontiersAfter qEmpty]. cbn. by rewrite E.
    + intros (n & q1'' & q2'' & Hn & Hf & He).
      destruct n as [|n].
      { injection Hf as <- <-. by destruct He. }
      cbn in Hf.
      destruct (commonAncestorStep range (r1 :: q1) (r2 :: q2) vr) as [[a|[q1' q2']]| |] eqn:E;
        try done.
      cbn [bindRes]. apply IH. exists n, q1'', q2''. split; [lia|]. done.
Qed.

(** ** [FindCommonAncestor] *)

Lemma FindCommonAncestor_loop `{Subtyping} `{Hasher} range fuel c1 c2 vr :
  IsCommitType (sType c1) = true → IsCommitType (sType c2) = true →
  FindCommonAncestor range fuel c1 c2 vr =
    commonAncestorLoop range fuel [NewRef c1] [NewRef c2] vr.
Proof. intros H1 H2. unfold FindCommonAncestor. by rewrite H1, H2. Qed.

Lemma FindCommonAncestor_Ok_types `{Subtyping} `{Hasher} range fuel c1 c2 vr o :
  FindCommonAncestor range fuel c1 c2 vr = Ok o →
  IsCommitType (sType c1) = true ∧ IsCommitType (sType c2) = true.
Proof.
  unfold FindCommonAncestor.
  destruct (IsCommitType (sType c1)); [|done].
  destruct (IsCommitType (sType c2)); done.
Qed.

(** Claim C5.  [FindCommonAncestor] returns the no-common-ancestor outcome
    exactly when, after some iterations that found no shared reference, one
    of the two frontiers is empty; and it returns that outcome, as a result
    and not as a failure, for two commits of a well-formed store from which
    no two references with the same target hash are reached. *)
Theorem FindCommonAncestor_no_common_ancestor `{Subtyping} `{Hasher}
    (range : RangeOrder) (fuel : nat) (c1 c2 : Struct) (vr : gmap Hash Struct) :
  (FindCommonAncestor range fuel c1 c2 vr = Ok None ↔
     IsCommitType (sType c1) = true ∧ IsCommitType (sType c2) = true ∧
     ∃ n q1 q2, (n ≤ fuel)%nat ∧
       frontiersAfter range n [NewRef c1] [NewRef c2] vr = Some (q1, q2) ∧
       (q1 = [] ∨ q2 = [])) ∧
  (storeOk vr = true → rangeOk range →
   refOk vr (NewRef c1) = true → refOk vr (NewRef c2) = true →
   IsCommitType (sType c1) = true → IsCommitType (sType c2) = true →
   (∀ n m r1 r2, descends vr n (NewRef c1) r1 → descends vr m (NewRef c2) r2 →
                 TargetHash r1 ≠ TargetHash r2) →
   (N.to_nat (Height (NewRef c1) + Height (NewRef c2)) ≤ fuel)%nat →
   FindCommonAncestor range fuel c1 c2 vr = Ok None).
Proof.
  split.
  - split.
    + intros Hr. destruct (FindCommonAncestor_Ok_types _ _ _ _ _ _ Hr) as [H1 H2].
      split; [done|]. split; [done|].
      rewrite FindCommonAncestor_loop in Hr by done. by apply commonAncestorLoop_None.
    + intros (H1 & H2 & Hf). rewrite FindCommonAncestor_loop by done.
      by apply commonAncestorLoop_None.
  - intros Hs Hrange Hr1 Hr2 H1 H2 Hdis Hfuel.
    rewrite FindCommonAncestor_loop by done.
    apply (commonAncestorLoop_disjoint range vr
             (λ x, ∃ n, descends vr n (NewRef c1) x)
             (λ x, ∃ n, descends vr n (NewRef c2) x)
             (N.to_nat (Height (NewRef c1) + Height (NewRef c2)))); try done.
    + intros x p [n Hn] (r & c & ps & ->%list_elem_of_singleton & Hc & Hps & Hp).
      exists (S n). by eapply descends_snoc.
    + intros x p [n Hn] (r & c & ps & ->%list_elem_of_singleton & Hc & Hps & Hp).
      exists (S n). by eapply descends_snoc.
    + intros x y [n Hn] [m Hm]. by eapply Hdis.
    + by apply queueOk_singleton.
    + by apply queueOk_singleton.
    + repeat constructor. exists 0%nat. constructor.
    + repeat constructor. exists 0%nat. constructor.
Qed.

(** Claim C8.  When the type of [c1] or of [c2] is not a commit type,
    [FindCommonAncestor] panics with its diagnostic, before any iteration
    and whatever the store holds. *)
Theorem FindCommonAncestor_panics `{Subtyping} `{Hasher}
    (range : RangeOrder) (fuel : nat) (c1 c2 : Struct) (vr : gmap Hash Struct) :
  IsCommitType (sType c1) = false ∨ IsCommitType (sType c2) = false →
  FindCommonAncestor range fuel c1 c2 vr = Panic "FindCommonAncestor() called on %s".
Proof.
  unfold FindCommonAncestor. intros [E|E].
  - by rewrite E.
  - destruct (IsCommitType (sType c1)); [by rewrite E | done].
Qed.

(** Claim C9.  In a store in which every reference has the height of one
    plus the greatest height of the references of its target, both
    [CommitDescendsFrom] and [FindCommonAncestor] finish: from some amount
    of fuel on, the first returns a boolean and the second does not run out
    of fuel, and returns a result when its arguments are commits. *)
Theorem ancestry_terminates `{Subtyping} `{Hasher}
    (range : RangeOrder) (c : Struct) (ancestor : Ref) (c1 c2 : Struct)
    (vr : gmap Hash Struct) :
  storeOk vr = true → rangeOk range → commitOk vr c = true →
  refOk vr (NewRef c1) = true → refOk vr (NewRef c2) = true →
  ∃ n, ∀ fuel, (n ≤ fuel)%nat →
    (∃ b, CommitDescendsFrom fuel c ancestor vr = Ok b) ∧
    FindCommonAncestor range fuel c1 c2 vr ≠ Timeout ∧
    (IsCommitType (sType c1) = true → IsCommitType (sType c2) = true →
     ∃ o, FindCommonAncestor range fuel c1 c2 vr = Ok o).
Proof.
  intros Hs Hrange Hc Hr1 Hr2.
  exists (N.to_nat (maxChunkHeight c) `max`
          N.to_nat (Height (NewRef c1) + Height (NewRef c2)))%nat.
  intros fuel Hfuel.
  assert (Hloop : ∃ o, commonAncestorLoop range fuel [NewRef c1] [NewRef c2] vr = Ok o).
  { apply (commonAncestorLoop_terminates range vr
             (N.to_nat (Height (NewRef c1) + Height (NewRef c2)))); try done.
    - by apply queueOk_singleton.
    - by apply queueOk_singleton.
    - lia. }
  split; [|split].
  - destruct (commitOk_inv _ _ Hc) as (ps & Hps & Hall).
    unfold CommitDescendsFrom. rewrite (proj1 (parentsOf_Some c ps) Hps). cbn [bindRes asSet].
    apply (descendsLoop_terminates vr ancestor (N.to_nat (maxChunkHeight c))); try done.
    + by apply frontierOk_fmap.
    + apply Forall_fmap, Forall_forall. intros p Hp. simpl.
      pose proof (parent_height c ps p Hps Hp). lia.
    + lia.
  - unfold FindCommonAncestor.
    destruct (IsCommitType (sType c1)); [|done].
    destruct (IsCommitType (sType c2)); [|done].
    cbn [PanicIfFalse bindRes]. destruct Hloop as [o ->]. done.
  - intros H1 H2. by rewrite FindCommonAncestor_loop.
Qed.

(** *** Symmetry *)

Lemma commonAncestorStep_swap range1 range2 q1 q2 vr a b :
  rangeOk range1 → rangeOk range2 →
  commonAncestorStep range1 q1 q2 vr = Ok (inr (a, b)) →
  commonAncestorStep range2 q2 q1 vr = Ok (inr (b, a)).
Proof.
  intros Hr1 Hr2. unfold commonAncestorStep.
  rewrite (N.eqb_sym (MaxHeight q2) (MaxHeight q1)).
  destruct (PopRefsOfHeight q1 (MaxHeight q1)) as [p1 rest1].
  destruct (PopRefsOfHeight q2 (MaxHeight q2)) as [p2 rest2].
  destruct (MaxHeight q1 =? MaxHeight q2) eqn:E.
  - destruct (findCommonRef range1 p1 p2) as [common|] eqn:Hc.
    { destruct (TargetValue common vr); done. }
    rewrite (findCommonRef_swap_None range1 range2 p1 p2 Hr1 Hr2 Hc).
    destruct (parentsToQueue p1 rest1 vr) as [a'| |]; cbn [bindRes]; try done.
    destruct (parentsToQueue p2 rest2 vr) as [b'| |]; cbn [bindRes]; try done.
    by intros [= <- <-].
  - apply N.eqb_neq in E.
    destruct (MaxHeight q2 <? MaxHeight q1) eqn:E2.
    + apply N.ltb_lt in E2.
      assert ((MaxHeight q1 <? MaxHeight q2) = false) as -> by (apply N.ltb_ge; lia).
      destruct (parentsToQueue p1 rest1 vr) as [a'| |]; cbn [bindRes]; try done.
      by intros [= <- <-].
    + apply N.ltb_ge in E2.
      assert ((MaxHeight q1 <? MaxHeight q2) = true) as -> by (apply N.ltb_lt; lia).
      destruct (parentsToQueue p2 rest2 vr) as [b'| |]; cbn [bindRes]; try done.
      by intros [= <- <-].
Qed.



(** Two results found on swapped queues are targets of references of one
    height. *)
Lemma commonAncestorLoop_same_height range1 range2 vr a1 a2 fuel : ∀ q1 q2,
  storeOk vr = true → rangeOk range1 → rangeOk range2 →
  queueOk vr q1 → queueOk vr q2 →
  commonAncestorLoop range1 fuel q1 q2 vr = Ok (Some a1) →
  commonAncestorLoop range2 fuel q2 q1 vr = Ok (Some a2) →
  maxChunkHeight a1 = maxChunkHeight a2.
Proof.
  induction fuel as [|fuel IH]; intros q1 q2 Hs Hr1 Hr2 H1 H2 Hl1 Hl2.
  - cbn [commonAncestorLoop] in Hl1. destruct (_ && _); done.
  - destruct q1 as [|r1 q1]; [by rewrite commonAncestorLoop_empty in Hl1 by (by left)|].
    destruct q2 as [|r2 q2]; [by rewrite commonAncestorLoop_empty in Hl1 by (by right)|].
    rewrite commonAncestorLoop_unfold in Hl1, Hl2 by done.
    destruct (commonAncestorStep_inv range1 vr (r1 :: q1) (r2 :: q2) Hs Hr1 H1 H2)
      as [(a & _ & _ & E1 & _ & _ & _ & _ & Hh1 & Heq)|(q1' & q2' & E1 & H1' & H2' & _)];
      try done.
    + rewrite E1 in Hl1. cbn [bindRes] in Hl1. injection Hl1 as ->.
      destruct (commonAncestorStep_inv range2 vr (r2 :: q2) (r1 :: q1) Hs Hr2 H2 H1)
        as [(a & _ & _ & E2 & _ & _ & _ & _ & Hh2 & _)|(q2' & q1' & E2 & _)]; try done.
      * rewrite E2 in Hl2. cbn [bindRes] in Hl2. injection Hl2 as ->. lia.
      * rewrite (commonAncestorStep_swap range2 range1 _ _ vr q2' q1' Hr2 Hr1 E2) in E1.
        done.
    + rewrite E1 in Hl1. cbn [bindRes] in Hl1.
      rewrite (commonAncestorStep_swap range1 range2 _ _ vr q1' q2' Hr1 Hr2 E1) in Hl2.
      cbn [bindRes] in Hl2. by apply (IH q1' q2').
Qed.


(** ** The sample store *)

Lemma rangeAsListed_ok : rangeOk rangeAsListed.
Proof. intros l. reflexivity. Qed.


(** The only reference reached from a root is the reference to the root. *)
Lemma descends_root n c r :
  sampleStore !! TargetHash (sampleRef c) = Some c → parentsOf c = Some [] →
  descends sampleStore n (sampleRef c) r → r = sampleRef c.
Proof.
  intros Hc Hps Hd. inversion Hd as [|? ? c' ps p ? Hc' Hps' Hp _]; subst; [done|].
  rewrite Hc in Hc'. injection Hc' as <-. rewrite Hps in Hps'. injection Hps' as <-.
  by apply elem_of_nil in Hp.
Qed.

(** Claim C3 on the sample store: [sW] does not descend from itself and
    descends from the root [sR1]. *)
Lemma CommitDescendsFrom_ancestors_witness :
  CommitDescendsFrom 1 sW (sampleRef sW) sampleStore = Ok false ∧
  ∃ n, ∀ fuel, (n ≤ fuel)%nat →
       CommitDescendsFrom fuel sW (sampleRef sR1) sampleStore = Ok true.
Proof.
  destruct (@CommitDescendsFrom_ancestors sampleHasher sW sampleStore eq_refl eq_refl)
    as [Hself Hanc].
  split.
  - apply (Hself [sampleRef sX]); [reflexivity|].
    intros Hin%list_elem_of_singleton. discriminate Hin.
  - apply Hanc. exists [sampleRef sX], (sampleRef sX), 1%nat.
    split; [reflexivity|]. split; [apply list_elem_of_here|].
    apply (descends_step sampleStore 0 (sampleRef sX) sX
             [sampleRef sY; sampleRef sR1] (sampleRef sR1)).
    + reflexivity.
    + reflexivity.
    + apply list_elem_of_further, list_elem_of_here.
    + constructor.
Defined.

(** Claim C5 on the two roots of the sample store. *)
Lemma FindCommonAncestor_no_common_ancestor_witness :
  @FindCommonAncestor structuralSubtype sampleHasher rangeAsListed 4 sR1 sR2 sampleStore
  = Ok None.
Proof.
  apply (proj2 (@FindCommonAncestor_no_common_ancestor structuralSubtype sampleHasher
                  rangeAsListed 4 sR1 sR2 sampleStore)).
  - reflexivity.
  - apply rangeAsListed_ok.
  - reflexivity.
  - reflexivity.
  - reflexivity.
  - reflexivity.
  - intros n m r1 r2 H1 H2.
    apply (descends_root n sR1 r1 eq_refl eq_refl) in H1.
    apply (descends_root m sR2 r2 eq_refl eq_refl) in H2.
    subst. discriminate.
  - vm_compute. lia.
Defined.



(** Claim C8 on a struct that is not a commit. *)
Lemma FindCommonAncestor_panics_witness :
  @FindCommonAncestor structuralSubtype sampleHasher rangeAsListed 10 notACommit sV
    sampleStore = Panic "FindCommonAncestor() called on %s".
Proof.
  apply (@FindCommonAncestor_panics structuralSubtype sampleHasher).
  left. reflexivity.
Defined.

(** Claim C9 on the sample store. *)
Lemma ancestry_terminates_witness :
  ∃ n, ∀ fuel, (n ≤ fuel)%nat →
    (∃ b, CommitDescendsFrom fuel sW (sampleRef sV) sampleStore = Ok b) ∧
    @FindCommonAncestor structuralSubtype sampleHasher rangeAsListed fuel sW sM1 sampleStore
      ≠ Timeout ∧
    (@IsCommitType structuralSubtype (sType sW) = true →
     @IsCommitType structuralSubtype (sType sM1) = true →
     ∃ o, @FindCommonAncestor structuralSubtype sampleHasher rangeAsListed fuel sW sM1
            sampleStore = Ok o).
Proof.
  apply (@ancestry_terminates structuralSubtype sampleHasher rangeAsListed sW
           (sampleRef sV) sW sM1 sampleStore).
  - reflexivity.
  - apply rangeAsListed_ok.
  - reflexivity.
  - reflexivity.
  - reflexivity.
Defined.

(** * Further properties of the code

    ** Commit types *)











(** The type built by [makeCommitType] is a struct named [Commit] with the
    fields [meta], [parents] and [value], the first and the last of the given
    types. *)
Lemma makeCommitType_shape vt pvs mt pms :
  ∃ P, makeCommitType vt pvs mt pms = commitStruct mt P vt.
Proof.
  unfold makeCommitType.
  destruct (Equals (MakeUnionType (pvs ++ [vt])) vt &&
            Equals (MakeUnionType (pms ++ [mt])) mt); eexists; reflexivity.
Qed.

(** A commit returned by [NewCommit] holds what it was built from: its
    fields [value], [parents] and [meta] are the three arguments, and its
    type gives the fields [value] and [meta] the types of the value and of
    the meta. *)
Theorem NewCommit_fields (value meta : Value) (parents : list Member) (c : Struct) :
  NewCommit value parents meta = Ok c →
  Get c ValueField = Ok value ∧
  Get c ParentsField = Ok (SetValue parents) ∧
  Get c MetaField = Ok meta ∧
  fieldTypeFromCommit (sType c) ValueField = Ok (typeOf value) ∧
  fieldTypeFromCommit (sType c) MetaField = Ok (typeOf meta).
Proof.
  unfold NewCommit. intros Hc.
  apply bindRes_Ok in Hc as (pvs & _ & Hc). apply bindRes_Ok in Hc as (pms & _ & Hc).
  injection Hc as <-.
  destruct (makeCommitType_shape (typeOf value) pvs (typeOf meta) pms) as (P & HP).
  unfold Get. cbn [sType sValues]. rewrite HP. repeat split; reflexivity.
Qed.

(** The fields of a commit on top of [sR1]. *)
Lemma NewCommit_fields_witness :
  ∃ c, NewCommit (stringValue 2) [MRef (sampleRef sR1)] sampleMeta = Ok c ∧
       Get c ValueField = Ok (stringValue 2) ∧
       Get c ParentsField = Ok (SetValue [MRef (sampleRef sR1)]) ∧
       Get c MetaField = Ok sampleMeta ∧
       fieldTypeFromCommit (sType c) ValueField = Ok (typeOf (stringValue 2)) ∧
       fieldTypeFromCommit (sType c) MetaField = Ok (typeOf sampleMeta).
Proof.
  eexists. split; [reflexivity|].
  apply (NewCommit_fields (stringValue 2) sampleMeta [MRef (sampleRef sR1)]).
  reflexivity.
Defined.

(** The [parents] field of a new commit has the cyclic type
    [Set<Ref<Cycle<0>>>] exactly when every value type and every meta type
    collected from the parents is the type of the new value and of the new
    meta. *)
Theorem NewCommit_parents_cyclic_iff (value meta : Value) (parents : list Member)
    (pvs pms : list Type_) (c : Struct) :
  valueTypesFromParents parents ValueField = Ok pvs →
  valueTypesFromParents parents MetaField = Ok pms →
  Kind (typeOf value) ≠ UnionKind → Kind (typeOf meta) ≠ UnionKind →
  Forall (λ t, Kind t ≠ UnionKind) pvs → Forall (λ t, Kind t ≠ UnionKind) pms →
  NewCommit value parents meta = Ok c →
  parentsFieldType c = Some cyclicParents ↔
  Forall (λ t, t = typeOf value) pvs ∧ Forall (λ m, m = typeOf meta) pms.
Proof.
  intros Hv Hm HT HM Hpvs Hpms Hc.
  unfold NewCommit in Hc. rewrite Hv, Hm in Hc. cbn [bindRes] in Hc. injection Hc as <-.
  unfold parentsFieldType. cbn [sType]. split.
  - intros Hcyc.
    assert (Hsame : ∀ t l, Kind t ≠ UnionKind → Forall (λ x, Kind x ≠ UnionKind) l →
              MakeUnionType (l ++ [t]) = t → Forall (λ x, x = t) l).
    { intros t l Ht Hl Hu. apply Forall_forall. intros x Hx.
      assert (Hin : x ∈ unionMembers (MakeUnionType (l ++ [t]))).
      { apply MakeUnionType_members.
        - apply Forall_app. split; [done | by constructor].
        - apply elem_of_app. by left. }
      rewrite Hu in Hin.
      assert (unionMembers t = [t]) as Hut.
      { destruct t as [k|k ts|n fs|n]; try done. by destruct k. }
      rewrite Hut in Hin. by apply list_elem_of_singleton in Hin. }
    assert (Hdec : ∀ a b : Type_, a = b ∨ a ≠ b).
    { intros a b. destruct (Equals a b) eqn:E; [left; by apply Equals_eq|].
      right. intros ->. by rewrite Equals_refl in E. }
    destruct (Hdec (MakeUnionType (pvs ++ [typeOf value])) (typeOf value)) as [E1|E1];
      [destruct (Hdec (MakeUnionType (pms ++ [typeOf meta])) (typeOf meta)) as [E2|E2]|].
    + split; by apply Hsame.
    + rewrite makeCommitType_union in Hcyc by (by right). discriminate Hcyc.
    + rewrite makeCommitType_union in Hcyc by (by left). discriminate Hcyc.
  - intros [H1 H2]. rewrite makeCommitType_cyclic; [reflexivity| |];
      by apply MakeUnionType_same.
Qed.

(** A string committed on top of the number [sR1]: the [parents] field is
    not cyclic, the collected value type [Number] not being [String]. *)
Lemma NewCommit_parents_cyclic_iff_witness :
  ∃ c, NewCommit (stringValue 2) [MRef (sampleRef sR1)] sampleMeta = Ok c ∧
    (parentsFieldType c = Some cyclicParents ↔
     Forall (λ t, t = typeOf (stringValue 2)) [NumberType] ∧
     Forall (λ m, m = typeOf sampleMeta) [EmptyStructType]).
Proof.
  eexists. split; [reflexivity|].
  apply (NewCommit_parents_cyclic_iff (stringValue 2) sampleMeta [MRef (sampleRef sR1)]
           [NumberType] [EmptyStructType]).
  - reflexivity.
  - reflexivity.
  - simpl; discriminate.
  - simpl; discriminate.
  - repeat constructor; simpl; discriminate.
  - repeat constructor; simpl; discriminate.
  - reflexivity.
Defined.

(** A commit returned by [NewCommit] gives its children its own value type
    and meta type only, whatever the types of its own parents were: a
    commit of a value and a meta of the same types on top of it has the type
    [struct Commit {meta: M, parents: Set<Ref<Cycle<0>>>, value: T}]
    again. *)
Theorem NewCommit_child_cyclic `{Hasher} (v0 m0 : Value) (ps0 : list Member)
    (c0 : Struct) (v m : Value) :
  NewCommit v0 ps0 m0 = Ok c0 →
  typeOf v = typeOf v0 → typeOf m = typeOf m0 →
  Kind (typeOf v) ≠ UnionKind → Kind (typeOf m) ≠ UnionKind →
  valueTypesFromParents [MRef (NewRef c0)] ValueField = Ok [typeOf v0] ∧
  valueTypesFromParents [MRef (NewRef c0)] MetaField = Ok [typeOf m0] ∧
  ∃ c, NewCommit v [MRef (NewRef c0)] m = Ok c ∧
       sType c = commitStruct (typeOf m) cyclicParents (typeOf v).
Proof.
  intros Hc0 Hv Hm HT HM.
  assert (Ht0 : ∃ P, sType c0 = commitStruct (typeOf m0) P (typeOf v0)).
  { unfold NewCommit in Hc0.
    apply bindRes_Ok in Hc0 as (pvs & _ & Hc0). apply bindRes_Ok in Hc0 as (pms & _ & Hc0).
    injection Hc0 as <-. cbn [sType]. apply makeCommitType_shape. }
  destruct Ht0 as (P & Ht0).
  destruct (valueTypesFromParents_single (NewRef c0) (typeOf m0) P (typeOf v0)) as [Hpv Hpm].
  { exact Ht0. }
  split; [done|]. split; [done|].
  apply (NewCommit_cyclic v m [MRef (NewRef c0)] [typeOf v0] [typeOf m0]); try done.
  - rewrite <- Hv. apply MakeUnionType_same; [done | by repeat constructor].
  - rewrite <- Hm. apply MakeUnionType_same; [done | by repeat constructor].
Qed.

(** A number, then a string (whose [parents] field is widened), then a
    string again: the third commit has the cyclic type. *)
Lemma NewCommit_child_cyclic_witness :
  ∃ c0, NewCommit (stringValue 2) [MRef (sampleRef sR1)] sampleMeta = Ok c0 ∧
    parentsFieldType c0 ≠ Some cyclicParents ∧
    valueTypesFromParents [MRef (@NewRef sampleHasher c0)] ValueField
      = Ok [typeOf (stringValue 2)] ∧
    valueTypesFromParents [MRef (@NewRef sampleHasher c0)] MetaField
      = Ok [typeOf sampleMeta] ∧
    ∃ c, NewCommit (stringValue 3) [MRef (@NewRef sampleHasher c0)] sampleMeta = Ok c ∧
         sType c = commitStruct (typeOf sampleMeta) cyclicParents (typeOf (stringValue 3)).
Proof.
  eexists. split; [reflexivity|]. split; [vm_compute; discriminate|].
  apply (@NewCommit_child_cyclic sampleHasher (stringValue 2) sampleMeta
           [MRef (sampleRef sR1)] _ (stringValue 3) sampleMeta).
  - reflexivity.
  - reflexivity.
  - reflexivity.
  - simpl; discriminate.
  - simpl; discriminate.
Defined.

(** [IsRefOfCommitType] answers false, without a panic, on a type that is
    not a reference type, and on [Ref<T>] it answers as [IsCommitType] on
    [T]; so on the type of the reference to a struct it answers as
    [IsCommitType] on the type of the struct. *)
Theorem IsRefOfCommitType_answers `{Subtyping} `{Hasher} (t : Type_) (c : Struct) :
  (Kind t ≠ RefKind → IsRefOfCommitType t = Ok false) ∧
  IsRefOfCommitType (MakeRefType t) = Ok (IsCommitType t) ∧
  IsRefOfCommitType (typeOfMember (MRef (NewRef c))) = Ok (IsCommitType (sType c)).
Proof.
  unfold IsRefOfCommitType. split; [|split].
  - intros Hk. by rewrite bool_decide_eq_false_2.
  - reflexivity.
  - reflexivity.
Qed.

(** ** Dataset names and heads *)

(** [DatasetRe] matches from a position exactly when the character there is
    an allowed one. *)
Lemma matchEnds_DatasetRe n s :
  matchEnds DatasetRe (n, s) ≠ [] ↔
  match s with c :: _ => isDatasetNameChar c = true | [] => False end.
Proof.
  change (matchEnds DatasetRe (n, s)) with (plusEnds nameCharStep (S (length s)) (n, s)).
  cbn [plusEnds]. destruct s as [|c s].
  - rewrite nameCharStep_nil. done.
  - rewrite nameCharStep_cons. destruct (isDatasetNameChar c); [|done].
    split; [done|]. intros _. discriminate.
Qed.

Lemma searchFrom_DatasetRe s : ∀ n,
  searchFrom DatasetRe n s = true ↔ Exists (λ c, isDatasetNameChar c = true) s.
Proof.
  induction s as [|c s IH]; intros n; cbn [searchFrom];
    pose proof (matchEnds_DatasetRe n) as Hm.
  - specialize (Hm []). destruct (matchEnds DatasetRe (n, [])) eqn:E.
    + split; [done|]. intros Hex. inversion Hex.
    + exfalso. apply (proj1 Hm). discriminate.
  - specialize (Hm (c :: s)). destruct (matchEnds DatasetRe (n, c :: s)) eqn:E.
    + rewrite IH, Exists_cons. split; [by right|].
      intros [Hc|?]; [|done]. exfalso. by apply (proj2 Hm Hc).
    + split; [|done]. intros _. apply Exists_cons_hd. apply (proj1 Hm). discriminate.
Qed.

(** The whole-text match on the bytes of a name. *)
Lemma searchFrom_full_chars s :
  searchFrom DatasetFullRe 0 s = true ↔
  s ≠ [] ∧ Forall (λ c, isDatasetNameChar c = true) s.
Proof.
  assert (Hs : searchFrom DatasetFullRe 0 s = true ↔
               matchEnds DatasetFullRe (0%nat, s) ≠ []).
  { destruct s as [|c s]; cbn [searchFrom];
      destruct (matchEnds DatasetFullRe _) eqn:E; try done.
    rewrite searchFrom_full_later by done. done. }
  rewrite Hs, matchEnds_full_start, flat_map_end_nonempty. split.
  - intros [m Hm]. by apply plusEnds_end in Hm.
  - intros [Hne Hall]. apply plusEnds_reaches_end; [done|done|lia].
Qed.

Lemma list_ascii_of_string_app a b :
  list_ascii_of_string (a ++ b) = list_ascii_of_string a ++ list_ascii_of_string b.
Proof. induction a as [|c a IH]; simpl; [done | by rewrite IH]. Qed.

Lemma list_ascii_of_string_nil a : list_ascii_of_string a = [] ↔ a = ""%string.
Proof. destruct a; simpl; split; congruence. Qed.

(** [DatasetRe.MatchString] looks for a legal name anywhere in the text: it
    is true exactly when the text has an allowed character, so on more texts
    than [IsValidDatasetName], which it covers. *)
Theorem DatasetRe_matches_anywhere (s : string) :
  (MatchString DatasetRe s = true ↔
   Exists (λ c, isDatasetNameChar c = true) (list_ascii_of_string s)) ∧
  (IsValidDatasetName s = true → MatchString DatasetRe s = true).
Proof.
  unfold IsValidDatasetName, MatchString. split; [apply searchFrom_DatasetRe|].
  rewrite searchFrom_full_chars, searchFrom_DatasetRe. intros [Hne Hall].
  destruct (list_ascii_of_string s) as [|c l]; [done|].
  inversion Hall; subst. by apply Exists_cons_hd.
Qed.

(** Two non-empty names joined by a slash are a valid dataset name exactly
    when both are. *)
Theorem IsValidDatasetName_join (a b : string) :
  a ≠ ""%string → b ≠ ""%string →
  IsValidDatasetName (a ++ "/" ++ b) = true ↔
  IsValidDatasetName a = true ∧ IsValidDatasetName b = true.
Proof.
  intros Ha Hb. unfold IsValidDatasetName, MatchString.
  rewrite !searchFrom_full_chars, !list_ascii_of_string_app.
  rewrite !Forall_app. cbn [list_ascii_of_string].
  rewrite <- (list_ascii_of_string_nil a) in Ha.
  rewrite <- (list_ascii_of_string_nil b) in Hb.
  split.
  - intros (_ & H1 & _ & H2). done.
  - intros ((_ & H1) & _ & H2). split; [|split; [done|split; [by constructor|done]]].
    destruct (list_ascii_of_string a); [done | discriminate].
Qed.

(** The names [photos] and [2016] and the path made of them. *)
Lemma IsValidDatasetName_join_witness :
  IsValidDatasetName ("photos" ++ "/" ++ "2016") = true ↔
  IsValidDatasetName "photos" = true ∧ IsValidDatasetName "2016" = true.
Proof.
  apply (IsValidDatasetName_join "photos" "2016"); discriminate.
Defined.

(** *** The head of a dataset *)

(** A dataset without a head: the [Maybe] methods report it without
    failing, the others panic with the message that the dataset does not
    exist. *)
Theorem Dataset_without_head (ds : Dataset) :
  headRef ds = None →
  MaybeHeadRef ds = None ∧ MaybeHead ds = Ok None ∧ MaybeHeadValue ds = Ok None ∧
  HeadRef ds = Panic datasetDoesNotExist ∧ Head ds = Panic datasetDoesNotExist ∧
  HeadValue ds = Panic datasetDoesNotExist.
Proof.
  intros Hh. unfold HeadValue, MaybeHeadValue, Head, HeadRef, MaybeHead, MaybeHeadRef.
  rewrite Hh. repeat split; reflexivity.
Qed.

(** The dataset of the sample store that has no head. *)
Lemma Dataset_without_head_witness :
  MaybeHeadRef emptyDataset = None ∧ MaybeHead emptyDataset = Ok None ∧
  MaybeHeadValue emptyDataset = Ok None ∧
  HeadRef emptyDataset = Panic datasetDoesNotExist ∧
  Head emptyDataset = Panic datasetDoesNotExist ∧
  HeadValue emptyDataset = Panic datasetDoesNotExist.
Proof. apply (Dataset_without_head emptyDataset). reflexivity. Defined.

(** A dataset whose head reference has no value in the database: the
    reference is still returned, and every method that reads the head
    panics on the missing value, the [Maybe] ones too. *)
Theorem Dataset_head_missing (ds : Dataset) (r : Ref) :
  headRef ds = Some r → Database ds !! TargetHash r = None →
  HeadRef ds = Ok r ∧
  (∃ msg, MaybeHead ds = Panic msg ∧ Head ds = Panic msg ∧
          MaybeHeadValue ds = Panic msg ∧ HeadValue ds = Panic msg ∧
          msg ≠ datasetDoesNotExist).
Proof.
  intros Hh Hr. unfold HeadValue, MaybeHeadValue, Head, HeadRef, MaybeHead, MaybeHeadRef.
  rewrite Hh. unfold TargetValue. rewrite Hr. split; [done|].
  eexists. repeat split; try reflexivity. vm_compute. discriminate.
Qed.

(** A head reference to [sW] over an empty database. *)
Lemma Dataset_head_missing_witness :
  HeadRef {| store := ∅; id := "main"; headRef := Some (sampleRef sW) |}
    = Ok (sampleRef sW) ∧
  (∃ msg,
     MaybeHead {| store := ∅; id := "main"; headRef := Some (sampleRef sW) |} = Panic msg ∧
     Head {| store := ∅; id := "main"; headRef := Some (sampleRef sW) |} = Panic msg ∧
     MaybeHeadValue {| store := ∅; id := "main"; headRef := Some (sampleRef sW) |}
       = Panic msg ∧
     HeadValue {| store := ∅; id := "main"; headRef := Some (sampleRef sW) |} = Panic msg ∧
     msg ≠ datasetDoesNotExist).
Proof.
  apply (Dataset_head_missing
           {| store := ∅; id := "main"; headRef := Some (sampleRef sW) |} (sampleRef sW)).
  - reflexivity.
  - reflexivity.
Defined.

(** The panicking methods and the [Maybe] methods agree: [HeadRef], [Head]
    and [HeadValue] return a result exactly when [MaybeHeadRef], [MaybeHead]
    and [MaybeHeadValue] return it with their flag set. *)
Theorem Dataset_head_agrees (ds : Dataset) (r : Ref) (c : Struct) (v : Value) :
  (HeadRef ds = Ok r ↔ MaybeHeadRef ds = Some r) ∧
  (Head ds = Ok c ↔ MaybeHead ds = Ok (Some c)) ∧
  (HeadValue ds = Ok v ↔ MaybeHeadValue ds = Ok (Some v)).
Proof.
  unfold HeadValue, MaybeHeadValue, Head, HeadRef.
  split; [|split].
  - destruct (MaybeHeadRef ds); split; congruence.
  - destruct (MaybeHead ds) as [[c'|]| |]; cbn [bindRes]; split; congruence.
  - destruct (MaybeHead ds) as [[c'|]| |]; cbn [bindRes]; try (split; congruence).
    destruct (Get c' ValueField); cbn [bindRes]; split; congruence.
Qed.

(** The value of a dataset whose head is a commit returned by [NewCommit]
    and held by the database is the value that was committed. *)
Theorem HeadValue_NewCommit (ds : Dataset) (r : Ref) (value meta : Value)
    (parents : list Member) (c : Struct) :
  NewCommit value parents meta = Ok c →
  headRef ds = Some r → Database ds !! TargetHash r = Some c →
  Head ds = Ok c ∧ HeadValue ds = Ok value ∧ MaybeHeadValue ds = Ok (Some value).
Proof.
  intros Hc Hh Hr.
  assert (Hg : Get c ValueField = Ok value).
  { unfold NewCommit in Hc.
    apply bindRes_Ok in Hc as (pvs & _ & Hc). apply bindRes_Ok in Hc as (pms & _ & Hc).
    injection Hc as <-.
    destruct (makeCommitType_shape (typeOf value) pvs (typeOf meta) pms) as (P & HP).
    unfold Get. cbn [sType sValues]. by rewrite HP. }
  unfold HeadValue, MaybeHeadValue, Head, MaybeHead, MaybeHeadRef.
  rewrite Hh. unfold TargetValue. rewrite Hr. cbn [bindRes]. by rewrite Hg.
Qed.

(** A first commit of the number 7, stored under the hash 7 and made the
    head. *)
Lemma HeadValue_NewCommit_witness :
  ∃ c, NewCommit (numberValue 7) [] sampleMeta = Ok c ∧
    let ds := {| store := {[ 7 := c ]}; id := "main";
                 headRef := Some (@NewRef sampleHasher c) |} in
    Head ds = Ok c ∧ HeadValue ds = Ok (numberValue 7) ∧
    MaybeHeadValue ds = Ok (Some (numberValue 7)).
Proof.
  eexists. split; [reflexivity|]. cbv zeta.
  eapply (HeadValue_NewCommit _ _ (numberValue 7) sampleMeta []).
  - reflexivity.
  - reflexivity.
  - reflexivity.
Defined.

(** ** [CommitDescendsFrom] and [getAncestors] *)

(** A result of the loop of [CommitDescendsFrom] does not depend on the fuel
    left over. *)
Lemma descendsLoop_more_fuel vr r fuel : ∀ F b k,
  descendsLoop fuel F r vr = Ok b → descendsLoop (fuel + k) F r vr = Ok b.
Proof.
  induction fuel as [|fuel IH]; intros F b k; cbn [descendsLoop Nat.add].
  - destruct (Has F (MRef r)) eqn:Hhas.
    { intros <-. destruct k; cbn [descendsLoop]; by rewrite Hhas. }
    destruct (Empty F) eqn:Hempty; [|done].
    intros <-. destruct k; cbn [descendsLoop]; by rewrite Hhas, Hempty.
  - destruct (Has F (MRef r)); [done|]. destruct (Empty F); [done|].
    destruct (getAncestors F (Height r) vr) as [new| |]; cbn [bindRes]; [|done|done].
    apply IH.
Qed.

(** The next frontier of a frontier of well-formed references is one. *)
Lemma frontierOk_next vr F h new :
  storeOk vr = true → frontierOk vr F = true →
  (∀ m, m ∈ new ↔ parentsOfTaller vr F h m ∧ h ≤ heightOfMember m) →
  frontierOk vr new = true.
Proof.
  intros Hs HF Hm. apply frontierOk_inv, Forall_forall. intros m Hmem.
  apply Hm in Hmem as [Hmem _].
  destruct (parentsOfTaller_ok vr F _ m Hs HF Hmem) as (q & _ & -> & Hq & _). eauto.
Qed.

(** When the loop answers true, the reference is in the frontier or is
    reached from it along parent edges. *)
Lemma descendsLoop_sound vr r fuel : ∀ F,
  storeOk vr = true → frontierOk vr F = true →
  descendsLoop fuel F r vr = Ok true →
  ∃ x n, MRef x ∈ F ∧ descends vr n x r.
Proof.
  induction fuel as [|fuel IH]; intros F Hs HF.
  - cbn [descendsLoop]. destruct (Has F (MRef r)) eqn:Hhas.
    + intros _. exists r, 0%nat. split; [by apply Has_elem | constructor].
    + by destruct (Empty F).
  - destruct (Has F (MRef r)) eqn:Hhas.
    { intros _. exists r, 0%nat. split; [by apply Has_elem | constructor]. }
    destruct (Empty F) eqn:Hempty.
    { cbn [descendsLoop]. by rewrite Hhas, Hempty. }
    destruct (descendsLoop_step fuel F r vr Hs HF Hhas Hempty) as (new & _ & -> & Hm).
    intros Hres.
    destruct (IH new Hs (frontierOk_next vr F _ new Hs HF Hm) Hres) as (x & n & Hx & Hd).
    apply Hm in Hx as [(y & c & ps & p & Hy & _ & Hc & Hps & Hp & [= <-]) _].
    exists y, (S n). split; [done|]. by apply (descends_step vr n y c ps x r).
Qed.

(** In a well-formed store, the answer of [CommitDescendsFrom] is right:
    it answers true exactly on the references that are parents of the
    commit or are reached from one along parent edges. *)
Theorem CommitDescendsFrom_decides (fuel : nat) (c : Struct) (r : Ref)
    (vr : gmap Hash Struct) (b : bool) :
  storeOk vr = true → commitOk vr c = true →
  CommitDescendsFrom fuel c r vr = Ok b →
  b = true ↔ ancestorOf vr c r.
Proof.
  intros Hs Hc. destruct (commitOk_inv _ _ Hc) as (ps & Hps & Hall).
  pose proof (frontierOk_fmap vr ps Hall) as HF.
  unfold CommitDescendsFrom. rewrite (proj1 (parentsOf_Some c ps) Hps). cbn [bindRes asSet].
  intros Hres. split.
  - intros ->. destruct (descendsLoop_sound vr r fuel _ Hs HF Hres) as (x & n & Hx & Hd).
    apply list_elem_of_fmap in Hx as (p & [= <-] & Hp). exists ps, x, n. done.
  - intros (ps' & p & n & Hps' & Hp & Hd). rewrite Hps in Hps'. injection Hps' as <-.
    assert (Htrue : descendsLoop n (MRef <$> ps) r vr = Ok true).
    { apply (descendsLoop_reaches vr r n _ p); try done.
      apply list_elem_of_fmap. eauto. }
    apply (descendsLoop_more_fuel _ _ _ _ _ fuel) in Htrue.
    apply (descendsLoop_more_fuel _ _ _ _ _ n) in Hres.
    rewrite Nat.add_comm in Hres. congruence.
Qed.

(** On the sample store [sV] is not an ancestor of [sW]. *)
Lemma CommitDescendsFrom_decides_witness :
  false = true ↔ ancestorOf sampleStore sW (sampleRef sV).
Proof.
  apply (CommitDescendsFrom_decides 3 sW (sampleRef sV) sampleStore false).
  - reflexivity.
  - reflexivity.
  - reflexivity.
Defined.

(** *** Loops over slices *)

Lemma forEach_inv {A S} (I : S → Prop) (body : S → A → Res S) (l : list A) : ∀ s0 s,
  I s0 → (∀ s x s', x ∈ l → I s → body s x = Ok s' → I s') →
  forEach body s0 l = Ok s → I s.
Proof.
  induction l as [|x l IH]; intros s0 s H0 Hstep; cbn [forEach].
  - by intros [= <-].
  - destruct (body s0 x) as [s1| |] eqn:Hx; cbn [bindRes]; [|done|done].
    apply IH.
    + apply (Hstep s0 x); [apply list_elem_of_here | done | done].
    + intros s' y s'' Hy. apply Hstep. by apply list_elem_of_further.
Qed.

Lemma forEach_same {A S} (body : S → A → Res S) (l : list A) (s0 : S) :
  (∀ x, x ∈ l → body s0 x = Ok s0) → forEach body s0 l = Ok s0.
Proof.
  induction l as [|x l IH]; intros Hstep; cbn [forEach]; [done|].
  rewrite Hstep by apply list_elem_of_here. cbn [bindRes].
  apply IH. intros y Hy. apply Hstep. by apply list_elem_of_further.
Qed.

Lemma forEach_no_Timeout {A S} (body : S → A → Res S) (l : list A) : ∀ s0,
  (∀ s x, body s x ≠ Timeout) → forEach body s0 l ≠ Timeout.
Proof.
  induction l as [|x l IH]; intros s0 Hb; cbn [forEach]; [done|].
  specialize (Hb s0 x) as Hx. destruct (body s0 x); cbn [bindRes]; [by apply IH|done|done].
Qed.

Lemma forEach_Panic {A S} (body : S → A → Res S) (l : list A) (x : A) : ∀ s0,
  x ∈ l → (∀ s, ∃ msg, body s x = Panic msg) → (∀ s y, body s y ≠ Timeout) →
  ∃ msg, forEach body s0 l = Panic msg.
Proof.
  induction l as [|y l IH]; intros s0 Hx Hp Hb; [by apply elem_of_nil in Hx|].
  cbn [forEach]. apply elem_of_cons in Hx as [<-|Hx].
  - destruct (Hp s0) as (msg & ->). by exists msg.
  - specialize (Hb s0 y) as Hy. destruct (body s0 y) as [s1|msg|]; cbn [bindRes].
    + by apply IH.
    + by exists msg.
    + done.
Qed.

(** *** Pruning by height *)

(** An ancestor that is not among the parents of a commit and is at least
    as tall as each of them is rejected after the parents have been read
    once: none of them is expanded. *)
Theorem CommitDescendsFrom_pruned (fuel : nat) (c : Struct) (ancestor : Ref)
    (vr : gmap Hash Struct) (ps : list Ref) :
  parentsOf c = Some ps →
  Forall (λ p, is_Some (vr !! TargetHash p) ∧ Height p ≤ Height ancestor) ps →
  ancestor ∉ ps →
  CommitDescendsFrom (S fuel) c ancestor vr = Ok false.
Proof.
  intros Hps Hall Hanc.
  unfold CommitDescendsFrom. rewrite (proj1 (parentsOf_Some c ps) Hps). cbn [bindRes asSet].
  assert (Hhas : Has (MRef <$> ps) (MRef ancestor) = false).
  { apply Has_false. intros (p & [= <-] & Hp)%list_elem_of_fmap. done. }
  cbn [descendsLoop]. rewrite Hhas.
  destruct (Empty (MRef <$> ps)); [done|].
  unfold getAncestors. rewrite forEach_same.
  - cbn [bindRes]. destruct fuel; reflexivity.
  - intros m (p & -> & Hp)%list_elem_of_fmap.
    eapply Forall_forall in Hall as [[c' Hc'] Hle]; [|done].
    cbn [asRef bindRes]. unfold TargetValue. rewrite Hc'. cbn [bindRes].
    assert ((Height ancestor <? Height p) = false) as -> by (apply N.ltb_ge; lia).
    reflexivity.
Qed.

(** The reference to [sX], of height 3, against the parents of [sX], of
    heights 2 and 1. *)
Lemma CommitDescendsFrom_pruned_witness :
  CommitDescendsFrom 1 sX (sampleRef sX) sampleStore = Ok false.
Proof.
  apply (CommitDescendsFrom_pruned 0 sX (sampleRef sX) sampleStore
           [sampleRef sY; sampleRef sR1]).
  - reflexivity.
  - repeat constructor; vm_compute; (eauto || discriminate).
  - intros Hin. repeat (apply elem_of_cons in Hin as [Hin|Hin]; [discriminate Hin|]).
    by apply elem_of_nil in Hin.
Defined.

(** *** Values that the store does not hold *)

(** The body of the loop of [getAncestors] returns or panics. *)
Lemma getAncestors_body_no_Timeout minHeight vr (ancestors : list Member) (v : Member) :
  (r ⇐ asRef v ;;
   c ⇐ TargetValue r vr ;;
   if minHeight <? Height r then
     pv ⇐ Get c ParentsField ;;
     ps ⇐ asSet pv ;;
     next ⇐ forEach (λ next v,
               r ⇐ asRef v ;;
               Ok (if minHeight <=? Height r then next ++ [v] else next))
             [] ps ;;
     Ok (Insert ancestors next)
   else Ok ancestors) ≠ Timeout.
Proof.
  destruct v as [r|]; cbn [asRef bindRes]; [|done].
  unfold TargetValue. destruct (vr !! TargetHash r) as [c|]; cbn [bindRes]; [|done].
  destruct (minHeight <? Height r); [|done].
  assert (Hget : Get c ParentsField ≠ Timeout).
  { unfold Get. destruct (sType c); try done. by destruct (_ ≫= _). }
  destruct (Get c ParentsField) as [pv| |]; cbn [bindRes]; [|done|done].
  destruct pv as [t ch d|ps]; cbn [bindRes asSet]; [done|].
  match goal with |- context [forEach ?b ?s ?l] =>
    pose proof (forEach_no_Timeout b l s) as Hn; destruct (forEach b s l) end;
    cbn [bindRes]; try done.
  exfalso. apply Hn; [|done]. intros s [x|]; done.
Qed.

(** A parent reference that the store has no value for makes
    [CommitDescendsFrom] panic, whatever its height, unless the ancestor is
    among the parents: every member of a frontier is read before its height
    is looked at. *)
Theorem CommitDescendsFrom_missing_parent (fuel : nat) (c : Struct) (ancestor : Ref)
    (vr : gmap Hash Struct) (ps : list Member) (r : Ref) :
  Get c ParentsField = Ok (SetValue ps) →
  MRef r ∈ ps → vr !! TargetHash r = None → MRef ancestor ∉ ps →
  ∃ msg, CommitDescendsFrom (S fuel) c ancestor vr = Panic msg.
Proof.
  intros Hg Hr Hnone Hanc.
  unfold CommitDescendsFrom. rewrite Hg. cbn [bindRes asSet descendsLoop].
  rewrite (proj2 (Has_false ps (MRef ancestor)) Hanc).
  assert (Empty ps = false) as ->.
  { apply Empty_false. intros ->. by apply elem_of_nil in Hr. }
  unfold getAncestors.
  match goal with |- context [forEach ?b ?s ?l] =>
    destruct (forEach_Panic b l (MRef r) s) as (msg & ->) end; try done.
  - intros s. cbn [asRef bindRes]. unfold TargetValue. rewrite Hnone. eauto.
  - intros s y. apply getAncestors_body_no_Timeout.
  - by exists msg.
Qed.

(** The parent [sX] of [sW] in an empty store. *)
Lemma CommitDescendsFrom_missing_parent_witness :
  ∃ msg, CommitDescendsFrom 1 sW (sampleRef sR1) ∅ = Panic msg.
Proof.
  apply (CommitDescendsFrom_missing_parent 0 sW (sampleRef sR1) ∅
           [MRef (sampleRef sX)] (sampleRef sX)).
  - reflexivity.
  - apply list_elem_of_here.
  - reflexivity.
  - intros Hin. apply elem_of_cons in Hin as [Hin|Hin]; [discriminate Hin|].
    by apply elem_of_nil in Hin.
Defined.

(** *** The set returned by [getAncestors] *)

Lemma Insert_NoDup vs : ∀ s, NoDup s → NoDup (Insert s vs).
Proof.
  unfold Insert. induction vs as [|v vs IH]; intros s Hs; cbn [foldl]; [done|].
  apply IH. destruct (Has s v) eqn:Hv; [done|].
  apply NoDup_app. split; [done|]. split; [|apply NoDup_singleton].
  intros x Hx ->%list_elem_of_singleton. by apply Has_false in Hv.
Qed.

(** Whatever the store holds, a set returned by [getAncestors] has no member
    twice, and its members are references of height at least [minHeight]. *)
Theorem getAncestors_result (commits : list Member) (minHeight : N)
    (vr : gmap Hash Struct) (ancestors : list Member) :
  getAncestors commits minHeight vr = Ok ancestors →
  NoDup ancestors ∧
  ∀ m, m ∈ ancestors → ∃ r, m = MRef r ∧ minHeight ≤ Height r.
Proof.
  unfold getAncestors.
  apply (forEach_inv (λ s, NoDup s ∧ ∀ m, m ∈ s → ∃ r, m = MRef r ∧ minHeight ≤ Height r)).
  - split; [apply NoDup_nil_2|]. intros m Hm. by apply elem_of_nil in Hm.
  - intros s v s' _ [Hnd Hs] Hbody.
    apply bindRes_Ok in Hbody as (r & _ & Hbody).
    apply bindRes_Ok in Hbody as (c & _ & Hbody).
    destruct (minHeight <? Height r); [|by injection Hbody as <-].
    apply bindRes_Ok in Hbody as (pv & _ & Hbody).
    apply bindRes_Ok in Hbody as (ps & _ & Hbody).
    apply bindRes_Ok in Hbody as (next & Hnext & Hbody). injection Hbody as <-.
    split; [by apply Insert_NoDup|].
    intros m [Hm|Hm]%Insert_elem; [by apply Hs|].
    revert Hnext m Hm.
    apply (forEach_inv (λ next, ∀ m, m ∈ next → ∃ r, m = MRef r ∧ minHeight ≤ Height r)).
    + intros m Hm. by apply elem_of_nil in Hm.
    + intros nx x nx' _ Hnx Hx.
      apply bindRes_Ok in Hx as (p & Hp & Hx). injection Hx as <-.
      destruct x as [p'|]; [|done]. injection Hp as ->.
      destruct (minHeight <=? Height p) eqn:Hle; [|done].
      intros m [Hm| ->%list_elem_of_singleton]%elem_of_app; [by apply Hnx|].
      exists p. split; [done|]. by apply N.leb_le.
Qed.

(** The parents of [sX] of height at least 2. *)
Lemma getAncestors_result_witness :
  NoDup [MRef (sampleRef sY)] ∧
  ∀ m, m ∈ [MRef (sampleRef sY)] → ∃ r, m = MRef r ∧ 2 ≤ Height r.
Proof.
  apply (getAncestors_result [MRef (sampleRef sX)] 2 sampleStore). reflexivity.
Defined.

(** ** [FindCommonAncestor] and its helpers *)

(** *** [findCommonRef] *)

Lemma toRefSet_is_Some s h :
  is_Some (toRefSet s !! h) ↔ ∃ r, r ∈ s ∧ TargetHash r = h.
Proof.
  split.
  - intros [r Hr]. exists r. by apply toRefSet_lookup.
  - unfold toRefSet. generalize (∅ : gmap Hash Ref).
    induction s as [|x s IH]; intros m (r & Hr & Hh); [by apply elem_of_nil in Hr|].
    cbn [foldl]. apply elem_of_cons in Hr as [->|Hr].
    + clear IH. assert (Hm : is_Some (<[TargetHash x:=x]> m !! h)).
      { subst h. rewrite lookup_insert_eq. eauto. }
      revert Hm. generalize (<[TargetHash x:=x]> m).
      induction s as [|y s IH]; intros m' Hm'; cbn [foldl]; [done|].
      apply IH. rewrite lookup_insert. case_decide; eauto.
    + apply IH. eauto.
Qed.

(** [findCommonRef] returns the zero reference exactly when no reference of
    the first slice has the target hash of a reference of the second; a
    reference that it returns is one of the first slice whose target hash is
    that of a reference of the second. *)
Theorem findCommonRef_shared (range : RangeOrder) (a b : list Ref) :
  rangeOk range →
  (findCommonRef range a b = None ↔
   ∀ x y, x ∈ a → y ∈ b → TargetHash x ≠ TargetHash y) ∧
  (∀ r, findCommonRef range a b = Some r →
        r ∈ a ∧ ∃ y, y ∈ b ∧ TargetHash y = TargetHash r).
Proof.
  intros Hrange. split.
  - rewrite findCommonRef_None by done. split.
    + intros Hn x y Hx Hy Heq.
      assert (Ha : is_Some (toRefSet a !! TargetHash x)) by (apply toRefSet_is_Some; eauto).
      assert (Hb : is_Some (toRefSet b !! TargetHash x)) by (apply toRefSet_is_Some; eauto).
      rewrite (Hn _ Ha) in Hb. by destruct Hb.
    + intros Hn s Ha. destruct (toRefSet b !! s) eqn:Hb; [|done]. exfalso.
      apply toRefSet_is_Some in Ha as (x & Hx & <-).
      destruct (proj1 (toRefSet_is_Some b (TargetHash x))) as (y & Hy & Hxy); [eauto|].
      by apply (Hn x y).
  - intros r Hr. destruct (findCommonRef_Some range a b r Hrange Hr) as [Ha Hb].
    apply toRefSet_lookup in Ha as [Ha _]. apply toRefSet_is_Some in Hb. done.
Qed.

(** The references to the two roots against the reference to the first. *)
Lemma findCommonRef_shared_witness :
  (findCommonRef rangeAsListed [sampleRef sR1; sampleRef sR2] [sampleRef sR1] = None ↔
   ∀ x y, x ∈ [sampleRef sR1; sampleRef sR2] → y ∈ [sampleRef sR1] →
          TargetHash x ≠ TargetHash y) ∧
  (∀ r, findCommonRef rangeAsListed [sampleRef sR1; sampleRef sR2] [sampleRef sR1]
          = Some r →
        r ∈ [sampleRef sR1; sampleRef sR2] ∧
        ∃ y, y ∈ [sampleRef sR1] ∧ TargetHash y = TargetHash r).
Proof.
  apply (findCommonRef_shared rangeAsListed). intros l. reflexivity.
Defined.

(** *** [parentsToQueue] *)

Lemma pushAll_inv p : ∀ q q1,
  forEach (λ q v, r ⇐ asRef v ;; Ok (PushBack q r)) q p = Ok q1 →
  ∃ ps, p = MRef <$> ps ∧ q1 = q ++ ps.
Proof.
  induction p as [|v p IH]; intros q q1; cbn [forEach].
  - intros [= <-]. exists []. by rewrite app_nil_r.
  - destruct v as [r|]; cbn [asRef bindRes]; [|done]. intros Hq.
    apply IH in Hq as (ps & -> & ->). exists (r :: ps). unfold PushBack.
    by rewrite <- app_assoc.
Qed.

Lemma parentsToQueue_pushed vr refs : ∀ q q1,
  forEach (λ q r,
      c ⇐ TargetValue r vr ;;
      pv ⇐ Get c ParentsField ;;
      p ⇐ asSet pv ;;
      forEach (λ q v, r ⇐ asRef v ;; Ok (PushBack q r)) q p) q refs = Ok q1 →
  q1 = q ++ allParents vr refs.
Proof.
  induction refs as [|r refs IH]; intros q q1; cbn [forEach].
  - intros [= <-]. unfold allParents. cbn. by rewrite app_nil_r.
  - intros Hq. apply bindRes_Ok in Hq as (q2 & Hbody & Hq).
    apply bindRes_Ok in Hbody as (c & Hc & Hbody).
    apply bindRes_Ok in Hbody as (pv & Hpv & Hbody).
    apply bindRes_Ok in Hbody as (p & Hp & Hbody).
    apply pushAll_inv in Hbody as (ps & -> & ->).
    destruct pv as [|ms]; [done|]. injection Hp as ->.
    apply TargetValue_Ok in Hc. apply parentsOf_Some in Hpv.
    apply IH in Hq as ->. unfold allParents. cbn [flat_map].
    rewrite Hc. cbn. rewrite Hpv. cbn. by rewrite <- app_assoc.
Qed.

(** A queue returned by [parentsToQueue] is sorted, tallest first, and holds
    the references of the queue it was given and the parents of the targets
    of [refs], each as many times as it was pushed. *)
Theorem parentsToQueue_result (refs q : list Ref) (vr : gmap Hash Struct)
    (q' : list Ref) :
  parentsToQueue refs q vr = Ok q' →
  StronglySorted taller q' ∧ q' ≡ₚ q ++ allParents vr refs.
Proof.
  unfold parentsToQueue. intros Hq. apply bindRes_Ok in Hq as (q1 & Hq1 & [= <-]).
  apply parentsToQueue_pushed in Hq1 as ->.
  split; [apply Sort_sorted | apply Sort_perm].
Qed.

(** The parents of [sX] and [sV] pushed on the queue that holds [sR2]. *)
Lemma parentsToQueue_result_witness :
  StronglySorted taller [sampleRef sY; sampleRef sR2; sampleRef sR1; sampleRef sR1] ∧
  [sampleRef sY; sampleRef sR2; sampleRef sR1; sampleRef sR1] ≡ₚ
    [sampleRef sR2] ++ allParents sampleStore [sampleRef sX; sampleRef sV].
Proof.
  apply (parentsToQueue_result [sampleRef sX; sampleRef sV] [sampleRef sR2] sampleStore).
  vm_compute. reflexivity.
Defined.

(** *** What [FindCommonAncestor] returns *)

Lemma allParents_elem vr refs x : x ∈ allParents vr refs ↔ isParentOf vr refs x.
Proof.
  unfold allParents, isParentOf. rewrite list_elem_of_In, in_flat_map. split.
  - intros (r & Hr%list_elem_of_In & Hx%list_elem_of_In). destruct (vr !! TargetHash r) as [c|] eqn:Hc; cbn in Hx;
      [|by apply elem_of_nil in Hx].
    destruct (parentsOf c) as [ps|] eqn:Hps; cbn in Hx; [|by apply elem_of_nil in Hx].
    by exists r, c, ps.
  - intros (r & c & ps & Hr & Hc & Hps & Hx). exists r. rewrite Hc. cbn. rewrite Hps.
    by rewrite <- !list_elem_of_In.
Qed.

Lemma parentsToQueue_elem vr refs q q' x :
  parentsToQueue refs q vr = Ok q' → x ∈ q' → x ∈ q ∨ isParentOf vr refs x.
Proof.
  unfold parentsToQueue. intros Hq. apply bindRes_Ok in Hq as (q1 & Hq1 & [= <-]).
  apply parentsToQueue_pushed in Hq1 as ->.
  rewrite Sort_elem, elem_of_app, allParents_elem. done.
Qed.

Lemma PopRefsOfHeight_elem q h refs rest x :
  PopRefsOfHeight q h = (refs, rest) → x ∈ refs ∨ x ∈ rest → x ∈ q.
Proof.
  intros Hp Hx. apply PopRefsOfHeight_split in Hp as (-> & _). by apply elem_of_app.
Qed.

(** One iteration, whatever the store holds: a commit that is returned is
    the target of a reference of the first queue that shares its hash with
    one of the second, and new queues hold references of the old ones and
    parents of those. *)
Lemma commonAncestorStep_sound range q1 q2 vr :
  rangeOk range →
  match commonAncestorStep range q1 q2 vr with
  | Ok (inl a) =>
      ∃ r1 r2, r1 ∈ q1 ∧ r2 ∈ q2 ∧ TargetHash r1 = TargetHash r2 ∧
               vr !! TargetHash r1 = Some a
  | Ok (inr (q1', q2')) =>
      (∀ x, x ∈ q1' → x ∈ q1 ∨ isParentOf vr q1 x) ∧
      (∀ x, x ∈ q2' → x ∈ q2 ∨ isParentOf vr q2 x)
  | _ => True
  end.
Proof.
  intros Hrange. unfold commonAncestorStep.
  destruct (PopRefsOfHeight q1 (MaxHeight q1)) as [p1 rest1] eqn:Hp1.
  destruct (PopRefsOfHeight q2 (MaxHeight q2)) as [p2 rest2] eqn:Hp2.
  assert (Hside : ∀ q p rest q' x,
            PopRefsOfHeight q (MaxHeight q) = (p, rest) →
            parentsToQueue p rest vr = Ok q' → x ∈ q' → x ∈ q ∨ isParentOf vr q x).
  { intros q p rest q' x Hp Hq' Hx.
    destruct (parentsToQueue_elem vr p rest q' x Hq' Hx) as [Hin|Hin].
    - left. eapply PopRefsOfHeight_elem; [done|]. by right.
    - right. eapply isParentOf_mono; [|done].
      intros r Hr. eapply PopRefsOfHeight_elem; [done|]. by left. }
  destruct (MaxHeight q1 =? MaxHeight q2).
  - destruct (findCommonRef range p1 p2) as [common|] eqn:Hc.
    + destruct (findCommonRef_Some range p1 p2 common Hrange Hc) as [Ha [rb Hb]].
      apply toRefSet_lookup in Ha as [Ha _]. apply toRefSet_lookup in Hb as [Hb Hhb].
      unfold TargetValue. destruct (vr !! TargetHash common) as [a|] eqn:Hv; cbn [bindRes];
        [|done].
      exists common, rb. split; [eapply PopRefsOfHeight_elem; [done|by left]|].
      split; [eapply PopRefsOfHeight_elem; [done|by left]|]. done.
    + destruct (parentsToQueue p1 rest1 vr) as [q1'| |] eqn:Hq1; cbn [bindRes]; try done.
      destruct (parentsToQueue p2 rest2 vr) as [q2'| |] eqn:Hq2; cbn [bindRes]; try done.
      split; intros x Hx; eauto.
  - destruct (MaxHeight q2 <? MaxHeight q1).
    + destruct (parentsToQueue p1 rest1 vr) as [q1'| |] eqn:Hq1; cbn [bindRes]; try done.
      split; intros x Hx; eauto.
    + destruct (parentsToQueue p2 rest2 vr) as [q2'| |] eqn:Hq2; cbn [bindRes]; try done.
      split; intros x Hx; eauto.
Qed.

Lemma reachable_step vr q q' r :
  (∀ x, x ∈ q' → x ∈ q ∨ isParentOf vr q x) → reachable vr q' r → reachable vr q r.
Proof.
  intros Hq (y & n & Hy & Hd). destruct (Hq y Hy) as [Hin|(z & c & ps & Hz & Hc & Hps & Hp)].
  - by exists y, n.
  - exists z, (S n). split; [done|]. by apply (descends_step vr n z c ps y r).
Qed.

Lemma reachable_member vr (q : list Ref) x : x ∈ q → reachable vr q x.
Proof. intros Hx. exists x, 0%nat. split; [done | constructor]. Qed.

Lemma commonAncestorLoop_sound range vr a fuel : ∀ q1 q2,
  rangeOk range →
  commonAncestorLoop range fuel q1 q2 vr = Ok (Some a) →
  ∃ r1 r2, reachable vr q1 r1 ∧ reachable vr q2 r2 ∧
           TargetHash r1 = TargetHash r2 ∧ vr !! TargetHash r1 = Some a.
Proof.
  induction fuel as [|fuel IH]; intros q1 q2 Hrange; cbn [commonAncestorLoop].
  - by destruct (negb (qEmpty q1) && negb (qEmpty q2)).
  - destruct (negb (qEmpty q1) && negb (qEmpty q2)); [|done].
    pose proof (commonAncestorStep_sound range q1 q2 vr Hrange) as Hstep.
    destruct (commonAncestorStep range q1 q2 vr) as [[a'|[q1' q2']]| |]; cbn [bindRes];
      try done.
    + intros [= <-]. destruct Hstep as (r1 & r2 & H1 & H2 & Hh & Hv).
      exists r1, r2. split; [by apply reachable_member|].
      split; [by apply reachable_member|]. done.
    + intros Hres. destruct Hstep as [Hm1 Hm2].
      destruct (IH q1' q2' Hrange Hres) as (r1 & r2 & H1 & H2 & Hh & Hv).
      exists r1, r2. split; [by eapply reachable_step|].
      split; [by eapply reachable_step|]. done.
Qed.

(** A commit returned by [FindCommonAncestor] is a common ancestor, whatever
    the store holds: it is the value of a reference that is the reference to
    the first commit or is reached from it along parent edges, and whose
    target hash is that of a reference so related to the second commit. *)
Theorem FindCommonAncestor_sound `{Subtyping} `{Hasher} (range : RangeOrder)
    (fuel : nat) (c1 c2 a : Struct) (vr : gmap Hash Struct) :
  rangeOk range →
  FindCommonAncestor range fuel c1 c2 vr = Ok (Some a) →
  ∃ r1 r2, reachable vr [NewRef c1] r1 ∧ reachable vr [NewRef c2] r2 ∧
           TargetHash r1 = TargetHash r2 ∧ vr !! TargetHash r1 = Some a.
Proof.
  intros Hrange Hres.
  destruct (FindCommonAncestor_Ok_types range fuel c1 c2 vr _ Hres) as [H1 H2].
  rewrite FindCommonAncestor_loop in Hres by done.
  by apply (commonAncestorLoop_sound range vr a fuel).
Qed.

(** The common ancestor [sR1] of [sW] and [sV] in the sample store. *)
Lemma FindCommonAncestor_sound_witness :
  ∃ r1 r2, reachable sampleStore [sampleRef sW] r1 ∧
           reachable sampleStore [sampleRef sV] r2 ∧
           TargetHash r1 = TargetHash r2 ∧ sampleStore !! TargetHash r1 = Some sR1.
Proof.
  apply (@FindCommonAncestor_sound structuralSubtype sampleHasher rangeAsListed 10
           sW sV sR1 sampleStore).
  - intros l. reflexivity.
  - vm_compute. reflexivity.
Defined.

(** A commit that the store holds under its hash is its own common
    ancestor: [FindCommonAncestor] on the commit and itself returns it in the
    first iteration. *)
Theorem FindCommonAncestor_self `{Subtyping} `{Hasher} (range : RangeOrder)
    (fuel : nat) (c : Struct) (vr : gmap Hash Struct) :
  rangeOk range → IsCommitType (sType c) = true →
  vr !! TargetHash (NewRef c) = Some c →
  FindCommonAncestor range (S fuel) c c vr = Ok (Some c).
Proof.
  intros Hrange Hc Hv. rewrite FindCommonAncestor_loop by done.
  rewrite commonAncestorLoop_unfold by done.
  unfold commonAncestorStep. cbn [MaxHeight PopRefsOfHeight].
  rewrite N.eqb_refl.
  destruct (findCommonRef range [NewRef c] [NewRef c]) as [r|] eqn:Hf.
  - destruct (findCommonRef_Some range _ _ r Hrange Hf) as [Ha _].
    apply toRefSet_lookup in Ha as [Ha%list_elem_of_singleton _]. subst r.
    unfold TargetValue. by rewrite Hv.
  - exfalso. rewrite (findCommonRef_None range _ _ Hrange) in Hf.
    assert (Hs : is_Some (toRefSet [NewRef c] !! TargetHash (NewRef c))).
    { apply toRefSet_is_Some. exists (NewRef c). split; [apply list_elem_of_here|done]. }
    rewrite (Hf _ Hs) in Hs. by destruct Hs.
Qed.

(** [sW] of the sample store against itself. *)
Lemma FindCommonAncestor_self_witness :
  @FindCommonAncestor structuralSubtype sampleHasher rangeAsListed 1 sW sW sampleStore
  = Ok (Some sW).
Proof.
  apply (@FindCommonAncestor_self structuralSubtype sampleHasher rangeAsListed 0 sW
           sampleStore).
  - intros l. reflexivity.
  - reflexivity.
  - reflexivity.
Defined.

(** *** The most recent common ancestor *)

(** In a well-formed store two references to one hash have one height. *)
Lemma refOk_same_height vr x y :
  refOk vr x = true → refOk vr y = true → TargetHash x = TargetHash y →
  Height x = Height y.
Proof.
  intros (c & ps & Hc & _ & Hx)%refOk_inv (c' & ps' & Hc' & _ & Hy)%refOk_inv Hh.
  rewrite Hh in Hc. congruence.
Qed.

Lemma queue_height_le vr q y : queueOk vr q → y ∈ q → Height y ≤ MaxHeight q.
Proof.
  intros [_ Hsorted] Hy. destruct q as [|r q]; [by apply elem_of_nil in Hy|].
  cbn [MaxHeight]. apply elem_of_cons in Hy as [->|Hy]; [lia|].
  apply StronglySorted_inv in Hsorted as [_ Hall].
  eapply Forall_forall in Hall; [|exact Hy]. exact Hall.
Qed.

Lemma reachable_height vr q x :
  storeOk vr = true → queueOk vr q → reachable vr q x →
  refOk vr x = true ∧ Height x ≤ MaxHeight q.
Proof.
  intros Hs Hq (y & n & Hy & Hd).
  assert (Hyok : refOk vr y = true).
  { destruct Hq as [Hok _]. by eapply Forall_forall in Hok. }
  destruct (descends_height vr n y x Hs Hyok Hd) as (Hx & Hle & _).
  pose proof (queue_height_le vr q y Hq Hy). split; [done|lia].
Qed.

(** A reference below the greatest height of a queue stays reachable when
    the tallest references are replaced by their parents. *)
Lemma reachable_expand vr q refs rest q' x :
  storeOk vr = true → queueOk vr q → q ≠ [] →
  PopRefsOfHeight q (MaxHeight q) = (refs, rest) →
  (∀ z, z ∈ q' ↔ z ∈ rest ∨ isParentOf vr refs z) →
  reachable vr q x → Height x ≠ MaxHeight q → reachable vr q' x.
Proof.
  intros Hs Hq Hne Hpop Hm (y & n & Hy & Hd) Hx.
  destruct (PopRefsOfHeight_max q refs rest (proj2 Hq) Hne Hpop) as (Hsplit & _ & Hh & _).
  rewrite Hsplit in Hy. apply elem_of_app in Hy as [Hy|Hy].
  - eapply Forall_forall in Hh; [|exact Hy].
    inversion Hd as [|n' ? c ps p ? Hc Hps Hp Hd']; subst; [done|].
    exists p, n'. split; [|done]. apply Hm. right. by exists y, c, ps.
  - exists y, n. split; [|done]. apply Hm. by left.
Qed.

(** A reachable reference of the greatest height of a queue is one of its
    tallest references. *)
Lemma reachable_top vr q refs rest x :
  storeOk vr = true → queueOk vr q → q ≠ [] →
  PopRefsOfHeight q (MaxHeight q) = (refs, rest) →
  reachable vr q x → Height x = MaxHeight q → x ∈ refs.
Proof.
  intros Hs Hq Hne Hpop (y & n & Hy & Hd) Hx.
  destruct (PopRefsOfHeight_max q refs rest (proj2 Hq) Hne Hpop)
    as (Hsplit & _ & _ & Hlow & _).
  assert (Hyok : refOk vr y = true).
  { destruct Hq as [Hok _]. by eapply Forall_forall in Hok. }
  destruct (descends_height vr n y x Hs Hyok Hd) as (_ & Hle & Hlt).
  pose proof (queue_height_le vr q y Hq Hy) as Hmax.
  destruct n as [|n]; [|specialize (Hlt ltac:(done)); lia].
  assert (y = x) as -> by (by inversion Hd).
  rewrite Hsplit in Hy. apply elem_of_app in Hy as [Hy|Hy]; [done|].
  eapply Forall_forall in Hlow; [|exact Hy]. lia.
Qed.

(** An iteration that finds nothing keeps a shared reference reachable from
    both queues. *)
Lemma commonAncestorStep_cover range vr q1 q2 q1' q2' x1 x2 :
  storeOk vr = true → rangeOk range → queueOk vr q1 → queueOk vr q2 →
  q1 ≠ [] → q2 ≠ [] →
  reachable vr q1 x1 → reachable vr q2 x2 → TargetHash x1 = TargetHash x2 →
  commonAncestorStep range q1 q2 vr = Ok (inr (q1', q2')) →
  reachable vr q1' x1 ∧ reachable vr q2' x2.
Proof.
  intros Hs Hrange H1 H2 Hne1 Hne2 Hr1 Hr2 Hh. unfold commonAncestorStep.
  destruct (PopRefsOfHeight q1 (MaxHeight q1)) as [p1 rest1] eqn:Hp1.
  destruct (PopRefsOfHeight q2 (MaxHeight q2)) as [p2 rest2] eqn:Hp2.
  destruct (expand_queue vr q1 p1 rest1 Hs (proj1 H1) (proj2 H1) Hne1 Hp1)
    as (e1 & He1 & _ & _ & _ & Hm1).
  destruct (expand_queue vr q2 p2 rest2 Hs (proj1 H2) (proj2 H2) Hne2 Hp2)
    as (e2 & He2 & _ & _ & _ & Hm2).
  destruct (reachable_height vr q1 x1 Hs H1 Hr1) as [Hx1 Hle1].
  destruct (reachable_height vr q2 x2 Hs H2 Hr2) as [Hx2 Hle2].
  pose proof (refOk_same_height vr x1 x2 Hx1 Hx2 Hh) as Hsame.
  destruct (MaxHeight q1 =? MaxHeight q2) eqn:E.
  - apply N.eqb_eq in E.
    destruct (findCommonRef range p1 p2) as [common|] eqn:Hc.
    { unfold TargetValue. by destruct (vr !! TargetHash common). }
    rewrite He1, He2. cbn [bindRes]. intros [= <- <-].
    assert (Hx : Height x1 ≠ MaxHeight q1).
    { intros Hx.
      pose proof (reachable_top vr q1 p1 rest1 x1 Hs H1 Hne1 Hp1 Hr1 Hx) as Hin1.
      assert (Hin2 : x2 ∈ p2).
      { apply (reachable_top vr q2 p2 rest2 x2 Hs H2 Hne2 Hp2 Hr2). lia. }
      rewrite (findCommonRef_None range p1 p2 Hrange) in Hc.
      assert (Ha : is_Some (toRefSet p1 !! TargetHash x1)) by (apply toRefSet_is_Some; eauto).
      assert (Hb : is_Some (toRefSet p2 !! TargetHash x1)) by (apply toRefSet_is_Some; eauto).
      rewrite (Hc _ Ha) in Hb. by destruct Hb. }
    split.
    + by apply (reachable_expand vr q1 p1 rest1).
    + apply (reachable_expand vr q2 p2 rest2); try done. lia.
  - apply N.eqb_neq in E. destruct (MaxHeight q2 <? MaxHeight q1) eqn:E2.
    + apply N.ltb_lt in E2. rewrite He1. cbn [bindRes]. intros [= <- <-].
      split; [|done]. apply (reachable_expand vr q1 p1 rest1); try done. lia.
    + apply N.ltb_ge in E2. rewrite He2. cbn [bindRes]. intros [= <- <-].
      split; [done|]. apply (reachable_expand vr q2 p2 rest2); try done. lia.
Qed.

(** With a shared reference reachable from both queues the loop returns a
    commit at least as tall. *)
Lemma commonAncestorLoop_most_recent range vr x1 x2 k : ∀ q1 q2 fuel,
  storeOk vr = true → rangeOk range → queueOk vr q1 → queueOk vr q2 →
  reachable vr q1 x1 → reachable vr q2 x2 → TargetHash x1 = TargetHash x2 →
  (N.to_nat (MaxHeight q1 + MaxHeight q2) ≤ k)%nat → (k ≤ fuel)%nat →
  ∃ a, commonAncestorLoop range fuel q1 q2 vr = Ok (Some a) ∧
       Height x1 ≤ 1 + maxChunkHeight a.
Proof.
  induction k as [|k IH]; intros q1 q2 fuel Hs Hrange H1 H2 Hr1 Hr2 Hh Hk Hfuel.
  - exfalso. destruct q1 as [|r1 q1].
    + destruct Hr1 as (y & n & Hy & _). by apply elem_of_nil in Hy.
    + pose proof (queueOk_height vr _ H1 ltac:(done)). lia.
  - assert (Hne1 : q1 ≠ []).
    { intros ->. destruct Hr1 as (y & n & Hy & _). by apply elem_of_nil in Hy. }
    assert (Hne2 : q2 ≠ []).
    { intros ->. destruct Hr2 as (y & n & Hy & _). by apply elem_of_nil in Hy. }
    destruct fuel as [|fuel]; [lia|].
    rewrite commonAncestorLoop_unfold by done.
    destruct (commonAncestorStep_inv range vr q1 q2 Hs Hrange H1 H2 Hne1 Hne2)
      as [(a & r1 & r2 & Hstep & _ & _ & _ & _ & Hha & _)
         |(q1' & q2' & Hstep & H1' & H2' & Hlt & _)].
    + rewrite Hstep. cbn [bindRes]. exists a. split; [done|].
      destruct (reachable_height vr q1 x1 Hs H1 Hr1) as [_ Hle]. lia.
    + destruct (commonAncestorStep_cover range vr q1 q2 q1' q2' x1 x2) as [Hr1' Hr2'];
        try done.
      rewrite Hstep. cbn [bindRes]. apply (IH q1' q2' fuel); try done; lia.
Qed.

(** The result of [FindCommonAncestor] on two commits of a well-formed store
    that have a common ancestor. *)
Lemma FindCommonAncestor_found `{Subtyping} `{Hasher} range fuel c1 c2 vr x1 x2 :
  storeOk vr = true → rangeOk range →
  refOk vr (NewRef c1) = true → refOk vr (NewRef c2) = true →
  IsCommitType (sType c1) = true → IsCommitType (sType c2) = true →
  reachable vr [NewRef c1] x1 → reachable vr [NewRef c2] x2 →
  TargetHash x1 = TargetHash x2 →
  (N.to_nat (Height (NewRef c1) + Height (NewRef c2)) ≤ fuel)%nat →
  ∃ a r1 r2, FindCommonAncestor range fuel c1 c2 vr = Ok (Some a) ∧
    reachable vr [NewRef c1] r1 ∧ reachable vr [NewRef c2] r2 ∧
    TargetHash r1 = TargetHash r2 ∧ vr !! TargetHash r1 = Some a ∧
    Height x1 ≤ Height r1 ∧ Height r1 = Height r2 ∧
    Height r1 = 1 + maxChunkHeight a.
Proof.
  intros Hs Hrange Hr1 Hr2 Ht1 Ht2 Hx1 Hx2 Hh Hfuel.
  rewrite FindCommonAncestor_loop by done.
  destruct (commonAncestorLoop_most_recent range vr x1 x2
              (N.to_nat (Height (NewRef c1) + Height (NewRef c2)))
              [NewRef c1] [NewRef c2] fuel) as (a & Ha & Hle); try done.
  { by apply queueOk_singleton. }
  { by apply queueOk_singleton. }
  destruct (commonAncestorLoop_sound range vr a fuel _ _ Hrange Ha)
    as (r1 & r2 & H1 & H2 & Hhr & Hv).
  exists a, r1, r2. repeat (split; [done|]).
  destruct (reachable_height vr _ r1 Hs (queueOk_singleton vr _ Hr1) H1) as [Hok1 _].
  destruct (reachable_height vr _ r2 Hs (queueOk_singleton vr _ Hr2) H2) as [Hok2 _].
  destruct (refOk_inv _ _ Hok1) as (c & ps & Hc & _ & Hhc).
  rewrite Hv in Hc. injection Hc as <-.
  split; [lia|]. split; [by apply (refOk_same_height vr) | done].
Qed.

(** In a well-formed store, two commits that have a common ancestor get one
    from [FindCommonAncestor], and a most recent one: it is the value of a
    reference reached from both commits, and no reference reached from both
    is taller. *)
Theorem FindCommonAncestor_most_recent `{Subtyping} `{Hasher} (range : RangeOrder)
    (fuel : nat) (c1 c2 : Struct) (vr : gmap Hash Struct) (x1 x2 : Ref) :
  storeOk vr = true → rangeOk range →
  refOk vr (NewRef c1) = true → refOk vr (NewRef c2) = true →
  IsCommitType (sType c1) = true → IsCommitType (sType c2) = true →
  reachable vr [NewRef c1] x1 → reachable vr [NewRef c2] x2 →
  TargetHash x1 = TargetHash x2 →
  (N.to_nat (Height (NewRef c1) + Height (NewRef c2)) ≤ fuel)%nat →
  ∃ a r1 r2, FindCommonAncestor range fuel c1 c2 vr = Ok (Some a) ∧
    reachable vr [NewRef c1] r1 ∧ reachable vr [NewRef c2] r2 ∧
    TargetHash r1 = TargetHash r2 ∧ vr !! TargetHash r1 = Some a ∧
    ∀ y1 y2, reachable vr [NewRef c1] y1 → reachable vr [NewRef c2] y2 →
             TargetHash y1 = TargetHash y2 → Height y1 ≤ Height r1.
Proof.
  intros Hs Hrange Hr1 Hr2 Ht1 Ht2 Hx1 Hx2 Hh Hfuel.
  destruct (FindCommonAncestor_found range fuel c1 c2 vr x1 x2)
    as (a & r1 & r2 & Ha & H1 & H2 & Hhr & Hv & _ & _ & Hha); try done.
  exists a, r1, r2. repeat (split; [done|]).
  intros y1 y2 Hy1 Hy2 Hhy.
  destruct (FindCommonAncestor_found range fuel c1 c2 vr y1 y2)
    as (a' & r1' & r2' & Ha' & _ & _ & _ & _ & Hle & _ & Hha'); try done.
  rewrite Ha in Ha'. injection Ha' as <-. lia.
Qed.

(** [sW] and [sV] of the sample store, with the root [sR1] as their common
    ancestor. *)
Lemma FindCommonAncestor_most_recent_witness :
  ∃ a r1 r2,
    @FindCommonAncestor structuralSubtype sampleHasher rangeAsListed 6 sW sV sampleStore
      = Ok (Some a) ∧
    reachable sampleStore [sampleRef sW] r1 ∧ reachable sampleStore [sampleRef sV] r2 ∧
    TargetHash r1 = TargetHash r2 ∧ sampleStore !! TargetHash r1 = Some a ∧
    ∀ y1 y2, reachable sampleStore [sampleRef sW] y1 →
             reachable sampleStore [sampleRef sV] y2 →
             TargetHash y1 = TargetHash y2 → Height y1 ≤ Height r1.
Proof.
  apply (@FindCommonAncestor_most_recent structuralSubtype sampleHasher rangeAsListed 6
           sW sV sampleStore (sampleRef sR1) (sampleRef sR1)).
  - reflexivity.
  - intros l. reflexivity.
  - reflexivity.
  - reflexivity.
  - reflexivity.
  - reflexivity.
  - exists (sampleRef sW), 2%nat. split; [apply list_elem_of_here|].
    apply (descends_step sampleStore 1 (sampleRef sW) sW [sampleRef sX] (sampleRef sX));
      [reflexivity | reflexivity | apply list_elem_of_here |].
    apply (descends_step sampleStore 0 (sampleRef sX) sX [sampleRef sY; sampleRef sR1]
             (sampleRef sR1));
      [reflexivity | reflexivity | apply list_elem_of_further, list_elem_of_here |].
    constructor.
  - exists (sampleRef sV), 1%nat. split; [apply list_elem_of_here|].
    apply (descends_step sampleStore 0 (sampleRef sV) sV [sampleRef sR1] (sampleRef sR1));
      [reflexivity | reflexivity | apply list_elem_of_here |].
    constructor.
  - reflexivity.
  - vm_compute. lia.
Defined.

(** In a well-formed store, the common ancestor of a commit and one of its
    ancestors is that ancestor: when the reference to [c2] is reached from
    [c1] and the store holds [c2] under its hash, [FindCommonAncestor]
    returns [c2]. *)
Theorem FindCommonAncestor_of_ancestor `{Subtyping} `{Hasher} (range : RangeOrder)
    (fuel : nat) (c1 c2 : Struct) (vr : gmap Hash Struct) :
  storeOk vr = true → rangeOk range →
  refOk vr (NewRef c1) = true → refOk vr (NewRef c2) = true →
  IsCommitType (sType c1) = true → IsCommitType (sType c2) = true →
  vr !! TargetHash (NewRef c2) = Some c2 →
  reachable vr [NewRef c1] (NewRef c2) →
  (N.to_nat (Height (NewRef c1) + Height (NewRef c2)) ≤ fuel)%nat →
  FindCommonAncestor range fuel c1 c2 vr = Ok (Some c2).
Proof.
  intros Hs Hrange Hr1 Hr2 Ht1 Ht2 Hv2 Hreach Hfuel.
  destruct (FindCommonAncestor_found range fuel c1 c2 vr (NewRef c2) (NewRef c2))
    as (a & r1 & r2 & Ha & _ & H2 & Hhr & Hv & Hle & Hsame & _); try done.
  { apply reachable_member, list_elem_of_here. }
  rewrite Ha. destruct H2 as (y & n & ->%list_elem_of_singleton & Hd).
  destruct (descends_height vr n (NewRef c2) r2 Hs Hr2 Hd) as (_ & _ & Hlt).
  destruct n as [|n]; [|specialize (Hlt ltac:(done)); lia].
  assert (r2 = NewRef c2) as -> by (by inversion Hd).
  rewrite Hhr, Hv2 in Hv. by injection Hv as ->.
Qed.

(** [sW] and its ancestor [sY] in the sample store. *)
Lemma FindCommonAncestor_of_ancestor_witness :
  @FindCommonAncestor structuralSubtype sampleHasher rangeAsListed 6 sW sY sampleStore
  = Ok (Some sY).
Proof.
  apply (@FindCommonAncestor_of_ancestor structuralSubtype sampleHasher rangeAsListed 6
           sW sY sampleStore).
  - reflexivity.
  - intros l. reflexivity.
  - reflexivity.
  - reflexivity.
  - reflexivity.
  - reflexivity.
  - reflexivity.
  - exists (sampleRef sW), 2%nat. split; [apply list_elem_of_here|].
    apply (descends_step sampleStore 1 (sampleRef sW) sW [sampleRef sX] (sampleRef sX));
      [reflexivity | reflexivity | apply list_elem_of_here |].
    apply (descends_step sampleStore 0 (sampleRef sX) sX [sampleRef sY; sampleRef sR1]
             (sampleRef sY));
      [reflexivity | reflexivity | apply list_elem_of_here |].
    constructor.
  - vm_compute. lia.
Defined.

(** In a well-formed store the two orders of the arguments give the same
    commit when the shared references of one height all have one target
    hash: the choice among several shared references of the greatest height
    is the only way for the two results to differ. *)
Theorem FindCommonAncestor_symmetric_unique `{Subtyping} `{Hasher}
    (range1 range2 : RangeOrder) (fuel : nat) (c1 c2 a1 a2 : Struct)
    (vr : gmap Hash Struct) :
  storeOk vr = true → rangeOk range1 → rangeOk range2 →
  refOk vr (NewRef c1) = true → refOk vr (NewRef c2) = true →
  (∀ y1 y2 z1 z2,
     reachable vr [NewRef c1] y1 → reachable vr [NewRef c2] y2 →
     TargetHash y1 = TargetHash y2 →
     reachable vr [NewRef c1] z1 → reachable vr [NewRef c2] z2 →
     TargetHash z1 = TargetHash z2 →
     Height y1 = Height z1 → TargetHash y1 = TargetHash z1) →
  FindCommonAncestor range1 fuel c1 c2 vr = Ok (Some a1) →
  FindCommonAncestor range2 fuel c2 c1 vr = Ok (Some a2) →
  a1 = a2.
Proof.
  intros Hs Hrange1 Hrange2 Hr1 Hr2 Huniq Ha1 Ha2.
  destruct (FindCommonAncestor_Ok_types range1 fuel c1 c2 vr _ Ha1) as [Ht1 Ht2].
  rewrite FindCommonAncestor_loop in Ha1 by done.
  rewrite FindCommonAncestor_loop in Ha2 by done.
  pose proof (commonAncestorLoop_same_height range1 range2 vr a1 a2 fuel
                [NewRef c1] [NewRef c2] Hs Hrange1 Hrange2
                (queueOk_singleton vr _ Hr1) (queueOk_singleton vr _ Hr2) Ha1 Ha2) as Hh.
  destruct (commonAncestorLoop_sound range1 vr a1 fuel _ _ Hrange1 Ha1)
    as (r1 & r2 & Hy1 & Hy2 & Hhr & Hv1).
  destruct (commonAncestorLoop_sound range2 vr a2 fuel _ _ Hrange2 Ha2)
    as (s2 & s1 & Hz2 & Hz1 & Hhs & Hv2).
  destruct (reachable_height vr _ r1 Hs (queueOk_singleton vr _ Hr1) Hy1) as [Hok1 _].
  destruct (reachable_height vr _ s1 Hs (queueOk_singleton vr _ Hr1) Hz1) as [Hok2 _].
  destruct (refOk_inv _ _ Hok1) as (c & ps & Hc & _ & Hhc).
  destruct (refOk_inv _ _ Hok2) as (c' & ps' & Hc' & _ & Hhc').
  rewrite Hv1 in Hc. injection Hc as <-.
  rewrite <- Hhs, Hv2 in Hc'. injection Hc' as <-.
  assert (Heq : TargetHash r1 = TargetHash s1).
  { apply (Huniq r1 r2 s1 s2); try done. lia. }
  rewrite Heq, <- Hhs, Hv2 in Hv1. by injection Hv1.
Qed.

(** [sV] and [sY] of the sample store, whose only shared reference is the
    one to the root [sR1]. *)
Lemma FindCommonAncestor_symmetric_unique_witness :
  ∃ a1 a2,
    @FindCommonAncestor structuralSubtype sampleHasher rangeAsListed 4 sV sY sampleStore
      = Ok (Some a1) ∧
    @FindCommonAncestor structuralSubtype sampleHasher rangeReversed 4 sY sV sampleStore
      = Ok (Some a2) ∧
    a1 = a2.
Proof.
  exists sR1, sR1. split; [vm_compute; reflexivity|]. split; [vm_compute; reflexivity|].
  apply (@FindCommonAncestor_symmetric_unique structuralSubtype sampleHasher
           rangeAsListed rangeReversed 4 sV sY sR1 sR1 sampleStore).
  - reflexivity.
  - intros l. reflexivity.
  - intros l. apply reverse_Permutation.
  - reflexivity.
  - reflexivity.
  - assert (Hreach : ∀ c k r, sampleStore !! TargetHash (sampleRef c) = Some c →
              parentsOf c = Some [sampleRef sR1] →
              descends sampleStore k (sampleRef c) r →
              r = sampleRef c ∨ r = sampleRef sR1).
    { intros c k r Hc Hps Hd.
      inversion Hd as [|k' ? c' ps p ? Hc' Hps' Hp Hd']; subst; [by left|]. right.
      rewrite Hc in Hc'. injection Hc' as <-. rewrite Hps in Hps'. injection Hps' as <-.
      apply list_elem_of_singleton in Hp as ->.
      by apply (descends_root k' sR1 r eq_refl eq_refl) in Hd'. }
    intros y1 y2 z1 z2 (v1 & n1 & ->%list_elem_of_singleton & Hy1)
      (v2 & n2 & ->%list_elem_of_singleton & Hy2) Hy
      (w1 & m1 & ->%list_elem_of_singleton & Hz1)
      (w2 & m2 & ->%list_elem_of_singleton & Hz2) Hz _.
    apply (Hreach sV n1 y1 eq_refl eq_refl) in Hy1.
    apply (Hreach sY n2 y2 eq_refl eq_refl) in Hy2.
    apply (Hreach sV m1 z1 eq_refl eq_refl) in Hz1.
    apply (Hreach sY m2 z2 eq_refl eq_refl) in Hz2.
    destruct Hy1 as [-> | ->], Hy2 as [-> | ->]; try discriminate Hy;
      destruct Hz1 as [-> | ->], Hz2 as [-> | ->]; try discriminate Hz; reflexivity.
  - vm_compute. reflexivity.
  - vm_compute. reflexivity.
Defined.
